(** * The RTP router of ion-sfu (package rtc)

    A shallow embedding of [Router] and of the loops it starts: the fan-out
    loop of [start], the per-subscriber writer and feedback loops, the REMB
    aggregation loop, and the bookkeeping of [AddSub], [delSub] and [Close].

    Conventions of the embedding.
    - A transport is an object of another package; the router only holds a
      reference to it.  A reference is a number, the nil interface value is
      [None], and every method the router calls on a transport is recorded
      in the world's [trace], in program order.
    - Values a collaborator hands back and the router branches on (the
      outcome of [WriteRTP], the error counter, the packet read from the
      source, the clock) are arguments of the function that embeds the
      code making the call.
    - Channels live in a heap, so that a channel can outlive the map entry
      that pointed to it.
    - A run-time panic is an outcome of its own; the world it leaves behind
      is the world at the faulting statement.
    - [subLock] is not represented: every operation below is one atomic
      step, which is what the lock gives the sections it protects. *)

From Stdlib Require Import ZArith Lia.
From stdpp Require Import base option list gmap strings fin_maps fin_sets.

(** ** Machine integers *)

Definition MaxUint64 : Z := 18446744073709551615.

(** Arithmetic on [uint64] wraps around. *)
Definition uint64 (z : Z) : Z := (z mod 2 ^ 64)%Z.

Definition is_uint64 (z : Z) : Prop := (0 ≤ z ≤ MaxUint64)%Z.

(** ** Packets (packages rtp and rtcp) *)

Record Packet := mkPacket {
  SSRC : Z;
  SequenceNumber : Z;
  PayloadType : Z
}.

Record NackPair := mkNackPair {
  PacketID : Z;
  LostPackets : Z
}.

Record TransportLayerNack := mkNack {
  SenderSSRC : Z;
  MediaSSRC : Z;
  Nacks : list NackPair
}.

(** The sender field of a REMB is [SenderSSRC] in the source as well; it is
    prefixed here because the two records share one name space. *)
Record ReceiverEstimatedMaximumBitrate := mkREMB {
  REMB_SenderSSRC : Z;
  Bitrate : Z;
  SSRCs : list Z
}.

Inductive RtcpPacket :=
| PictureLossIndication (sender media : Z)
| FullIntraRequest (sender media : Z)
| REMB (p : ReceiverEstimatedMaximumBitrate)
| NACK (p : TransportLayerNack)
| OtherRtcp.

(** ** Collaborators *)

(** A reference to a transport object; [option Transport] is the interface
    value, [None] being nil. *)
Definition Transport := nat.

(** A [func()] value handed to [Router.OnClose]. *)
Definition Handler := nat.

(** The two closures the router registers on transports. *)
Inductive Callback :=
| CallClose                      (* func() { r.Close() } *)
| CallDelSub (id : string).      (* func() { r.delSub(id) } *)

(** The goroutines the router starts. *)
Inductive Task :=
| FanOutLoop
| RembLoop
| SubWriteLoop (subID : string) (trans : Transport)
| SubFeedbackLoop (subID : string) (trans : Transport).

Inductive Event :=
| TID (t : Transport)
| TReadRTP (t : Transport)
| TWriteRTP (t : Transport) (p : Packet)
| TWriteRTCP (t : Transport) (p : RtcpPacket)
| TWriteErrTotal (t : Transport)
| TWriteErrReset (t : Transport)
| TOnClose (t : Transport) (cb : Callback)
| TClose (t : Transport)
| ChainAttachPub (t : option Transport)
| ChainReadRTP
| ChainClose
| HandlerCall (f : Handler)
| Go (task : Task).

(** *** The plugin chain *)

Inductive PluginType := TypeJitterBuffer | TypeRTPForwarder.

#[export] Instance PluginType_eq_dec : EqDecision PluginType.
Proof. solve_decision. Defined.

(** Modelled from the spec: the jitter buffer of package plugins, whose
    source is absent.  It "buffers recent RTP by (SSRC, sequence number)"
    and "answers point lookups for NACK retransmission". *)
Record JitterBuffer := mkJitterBuffer {
  jb_packets : gmap (Z * Z) Packet
}.

(** Modelled from the spec: [GetPacket(ssrc, seq)] "returns the buffered
    packet if still within the retention window; otherwise absent". *)
Definition GetPacket (jb : JitterBuffer) (ssrc sn : Z) : option Packet :=
  jb_packets jb !! (ssrc, sn).

Inductive Plugin :=
| JitterBufferPlugin (jb : JitterBuffer)
| RTPForwarderPlugin.

Definition plugin_type (p : Plugin) : PluginType :=
  match p with
  | JitterBufferPlugin _ => TypeJitterBuffer
  | RTPForwarderPlugin => TypeRTPForwarder
  end.

(** Modelled from the spec: the plugin chain of package plugins, "an
    ordered sequence of plugins wired head-to-tail".  The value stored in
    the router is the chain as the router finds it at the time of a call. *)
Record PluginChain := mkPluginChain {
  chain_plugins : list Plugin
}.

(** Modelled from the spec: [NewPluginChain]; plugins are instantiated by
    [Init] only. *)
Definition NewPluginChain (id : string) : PluginChain :=
  {| chain_plugins := [] |}.

(** Modelled from the spec: [On()] is "true iff at least one plugin is
    enabled". *)
Definition On (pc : PluginChain) : bool :=
  match chain_plugins pc with
  | [] => false
  | _ :: _ => true
  end.

(** Modelled from the spec: [GetPlugin(kind)] "returns the first plugin of
    the requested kind, or absent". *)
Definition GetPlugin (pc : PluginChain) (kind : PluginType) : option Plugin :=
  list_find (λ p, plugin_type p = kind) (chain_plugins pc) ≫= λ ip, Some ip.2.

(** ** Channels *)

(** A buffered channel of [*rtp.Packet]. *)
Record Chan := mkChan {
  buf : list Packet;
  cap : nat;
  closed : bool
}.

(** ** The router *)

Definition maxWriteErr : Z := 100.

Record RouterConfig := mkRouterConfig {
  MinBandwidth : Z;
  MaxBandwidth : Z;
  REMBFeedback : bool
}.

(** [pluginChain] is a pointer in the source; [NewRouter] allocates it and
    no statement assigns it afterwards, so it is never nil and the guards
    [r.pluginChain != nil] always hold.  [rembChan] is unbuffered: the
    list holds the packets of the senders blocked on it, oldest first.
    [subChans] maps to channel references; a missing key reads as the nil
    channel, as in Go. *)
Record Router := mkRouter {
  id : string;
  pub : option Transport;
  subs : gmap string (option Transport);
  stop : bool;
  pluginChain : PluginChain;
  subChans : gmap string nat;
  rembChan : list ReceiverEstimatedMaximumBitrate;
  onCloseHandler : option Handler
}.

(** The router together with what it shares with the rest of the process:
    the channel heap, the package-level [routerConfig], and the record of
    the calls made so far. *)
Record World := mkWorld {
  router : Router;
  chans : gmap nat Chan;
  routerConfig : RouterConfig;
  trace : list Event
}.

Definition NewRouter (i : string) : Router :=
  {| id := i;
     pub := None;
     subs := ∅;
     stop := false;
     pluginChain := NewPluginChain i;
     subChans := ∅;
     rembChan := [];
     onCloseHandler := None |}.

Definition NewWorld (i : string) (cfg : RouterConfig) : World :=
  {| router := NewRouter i; chans := ∅; routerConfig := cfg; trace := [] |}.

(** *** Field updates *)

Definition with_router (f : Router → Router) (w : World) : World :=
  {| router := f (router w); chans := chans w;
     routerConfig := routerConfig w; trace := trace w |}.

Definition with_chans (f : gmap nat Chan → gmap nat Chan) (w : World) : World :=
  {| router := router w; chans := f (chans w);
     routerConfig := routerConfig w; trace := trace w |}.

Definition emit (e : Event) (w : World) : World :=
  {| router := router w; chans := chans w;
     routerConfig := routerConfig w; trace := trace w ++ [e] |}.

Definition set_pub (t : option Transport) (r : Router) : Router :=
  {| id := id r; pub := t; subs := subs r; stop := stop r;
     pluginChain := pluginChain r; subChans := subChans r;
     rembChan := rembChan r; onCloseHandler := onCloseHandler r |}.

Definition set_subs (m : gmap string (option Transport)) (r : Router) : Router :=
  {| id := id r; pub := pub r; subs := m; stop := stop r;
     pluginChain := pluginChain r; subChans := subChans r;
     rembChan := rembChan r; onCloseHandler := onCloseHandler r |}.

Definition set_stop (b : bool) (r : Router) : Router :=
  {| id := id r; pub := pub r; subs := subs r; stop := b;
     pluginChain := pluginChain r; subChans := subChans r;
     rembChan := rembChan r; onCloseHandler := onCloseHandler r |}.

Definition set_pluginChain (pc : PluginChain) (r : Router) : Router :=
  {| id := id r; pub := pub r; subs := subs r; stop := stop r;
     pluginChain := pc; subChans := subChans r;
     rembChan := rembChan r; onCloseHandler := onCloseHandler r |}.

Definition set_subChans (m : gmap string nat) (r : Router) : Router :=
  {| id := id r; pub := pub r; subs := subs r; stop := stop r;
     pluginChain := pluginChain r; subChans := m;
     rembChan := rembChan r; onCloseHandler := onCloseHandler r |}.

Definition set_rembChan (q : list ReceiverEstimatedMaximumBitrate) (r : Router) : Router :=
  {| id := id r; pub := pub r; subs := subs r; stop := stop r;
     pluginChain := pluginChain r; subChans := subChans r;
     rembChan := q; onCloseHandler := onCloseHandler r |}.

Definition set_onCloseHandler (f : option Handler) (r : Router) : Router :=
  {| id := id r; pub := pub r; subs := subs r; stop := stop r;
     pluginChain := pluginChain r; subChans := subChans r;
     rembChan := rembChan r; onCloseHandler := f |}.

(** ** Computations that may panic *)

Inductive Panic :=
| NilDereference          (* method call on a nil interface value *)
| NilFuncCall             (* call of a nil func value *)
| SendOnClosedChannel
| CloseOfClosedChannel
| CloseOfNilChannel
| DivideByZero
| TypeAssertion.

Inductive Outcome (A : Type) :=
| Returned (a : A)
| Panicked (p : Panic).
Arguments Returned {A} a.
Arguments Panicked {A} p.

Definition M (A : Type) : Type := World → Outcome A * World.

#[export] Instance M_ret : MRet M := λ A a w, (Returned a, w).

#[export] Instance M_bind : MBind M := λ A B k m w,
  match m w with
  | (Returned a, w') => k a w'
  | (Panicked p, w') => (Panicked p, w')
  end.

Definition panic {A} (p : Panic) : M A := λ w, (Panicked p, w).

Definition get : M World := λ w, (Returned w, w).
Definition modify (f : World → World) : M unit := λ w, (Returned tt, f w).
Definition call (e : Event) : M unit := modify (emit e).

(** A method call through an interface value: nil faults. *)
Definition deref (t : option Transport) : M Transport :=
  match t with
  | Some h => mret h
  | None => panic NilDereference
  end.

(** [for _, x := range xs { body x }] *)
Fixpoint for_each {A} (xs : list A) (body : A → M unit) : M unit :=
  match xs with
  | [] => mret tt
  | x :: rest => body x ;; for_each rest body
  end.

(** Go visits the keys of a map in an order it does not specify.  [ord] is
    the order the run time happens to choose: the keys of the map that
    occur in [ord] are visited in that order, the others after them. *)
Definition range_keys {A} (ord : list string) (m : gmap string A) : list string :=
  filter (λ k, is_Some (m !! k)) (remove_dups ord)
  ++ filter (λ k, k ∉ ord) (elements (dom m)).

(** Reading a map of interface values: a missing key reads as nil. *)
Definition lookup_iface (m : gmap string (option Transport)) (k : string)
  : option Transport :=
  match m !! k with
  | Some t => t
  | None => None
  end.

(** ** Channel operations

    A reference without a cell in the heap does not arise from the
    operations below ([wf_chans_open]); the primitives treat it as the nil
    channel. *)

(** [make(chan *rtp.Packet, n)] *)
Definition make_chan (n : nat) : M nat := λ w,
  let c := fresh (dom (chans w)) in
  (Returned c, with_chans (<[c := mkChan [] n false]>) w).

(** [close(c)] *)
Definition close_chan (c : nat) : M unit := λ w,
  match chans w !! c with
  | None => (Panicked CloseOfNilChannel, w)
  | Some ch =>
    if closed ch then (Panicked CloseOfClosedChannel, w)
    else (Returned tt, with_chans (<[c := mkChan (buf ch) (cap ch) true]>) w)
  end.

(** [select { case c <- p: default: }]; the result tells whether the send
    case was taken.  A nil channel is never ready; a closed one panics. *)
Definition try_send (c : option nat) (p : Packet) : M bool := λ w,
  match c ≫= λ h, chans w !! h ≫= λ ch, Some (h, ch) with
  | None => (Returned false, w)
  | Some (h, ch) =>
    if closed ch then (Panicked SendOnClosedChannel, w)
    else if decide (length (buf ch) < cap ch)
    then (Returned true,
          with_chans (<[h := mkChan (buf ch ++ [p]) (cap ch) false]>) w)
    else (Returned false, w)
  end.

Inductive Recv :=
| Received (p : Packet)
| ChanClosed              (* closed and drained: a range loop ends *)
| WouldBlock.             (* nothing buffered: the receiver waits *)

(** One receive of [for p := range c]. *)
Definition recv (c : option nat) : M Recv := λ w,
  match c ≫= λ h, chans w !! h ≫= λ ch, Some (h, ch) with
  | None => (Returned WouldBlock, w)
  | Some (h, ch) =>
    match buf ch with
    | p :: rest =>
      (Returned (Received p),
       with_chans (<[h := mkChan rest (cap ch) (closed ch)]>) w)
    | [] => (Returned (if closed ch then ChanClosed else WouldBlock), w)
    end
  end.

(** ** Router operations *)

Definition GetPub : M (option Transport) :=
  w ← get; mret (pub (router w)).

Definition GetSub (i : string) : M (option Transport) :=
  w ← get; mret (lookup_iface (subs (router w)) i).

Definition GetSubs : M (gmap string (option Transport)) :=
  w ← get; mret (subs (router w)).

Definition OnClose (f : option Handler) : M unit :=
  modify (with_router (set_onCloseHandler f)).

Definition delSub (i : string) : M unit :=
  w ← get;
  match lookup_iface (subs (router w)) i with
  | Some t => call (TClose t)
  | None => mret tt
  end;;
  match subChans (router w) !! i with
  | Some c => close_chan c
  | None => mret tt
  end;;
  modify (with_router (λ r, set_subs (delete i (subs r)) r));;
  modify (with_router (λ r, set_subChans (delete i (subChans r)) r)).

Definition delSubs (ord : list string) : M unit :=
  w ← get;
  let keys := range_keys ord (subs (router w)) in
  for_each keys delSub.

(** The log statement that opens [delPub] evaluates [r.pub.ID()] before
    the nil test. *)
Definition delPub : M unit :=
  w ← get;
  p ← deref (pub (router w));
  call (TID p);;
  match pub (router w) with
  | Some t => call (TClose t)
  | None => mret tt
  end;;
  call ChainClose;;
  modify (with_router (set_pub None)).

Definition Close (ord : list string) : M unit :=
  w ← get;
  if stop (router w) then mret tt
  else
    match onCloseHandler (router w) with
    | Some f => call (HandlerCall f)
    | None => panic NilFuncCall
    end;;
    delPub;;
    modify (with_router (set_stop true));;
    delSubs ord.

(** [start] launches the loops; their iterations are [start_body] and
    [rembLoop_body] below. *)
Definition start : M unit :=
  w ← get;
  (if REMBFeedback (routerConfig w) then call (Go RembLoop) else mret tt);;
  call (Go FanOutLoop).

Definition AddPub (t : option Transport) : M (option Transport) :=
  modify (with_router (set_pub t));;
  call (ChainAttachPub t);;
  start;;
  h ← deref t;
  call (TOnClose h CallClose);;
  mret t.

Definition AddSub (i : string) (t : option Transport) : M (option Transport) :=
  w ← get;
  if stop (router w) then mret None
  else
    modify (with_router (λ r, set_subs (<[i := t]> (subs r)) r));;
    c ← make_chan 1000;
    modify (with_router (λ r, set_subChans (<[i := c]> (subChans r)) r));;
    h ← deref t;
    call (TOnClose h (CallDelSub i));;
    call (Go (SubWriteLoop i h));;
    call (Go (SubFeedbackLoop i h));;
    mret t.

(** *** The fan-out loop of [start] *)

Inductive LoopCtl := Continue | Break.

(** What the source hands back to one iteration. *)
Record ReadResult := mkReadResult {
  rd_pkt : option Packet;
  rd_err : bool
}.

(** The inner [for i := range r.GetSubs()] with its non-blocking send. *)
Definition fanout (ord : list string) (pkt : Packet) : M unit :=
  m ← GetSubs;
  for_each (range_keys ord m)
    (λ i, w ← get; try_send (subChans (router w) !! i) pkt;; mret tt).

(** One iteration of the loop.  Both [continue] statements (read error,
    nil packet) resume the loop, so a failed read yields no packet. *)
Definition start_body (rd : ReadResult) (ord : list string) : M LoopCtl :=
  w ← get;
  if stop (router w) then mret Break
  else
    pkt ← (if On (pluginChain (router w))
           then call ChainReadRTP;; mret (rd_pkt rd)
           else p ← deref (pub (router w));
                call (TReadRTP p);;
                mret (if rd_err rd then None else rd_pkt rd));
    match pkt with
    | None => mret Continue
    | Some p => fanout ord p;; mret Continue
    end.

(** The loop over the reads of a run; a panic ends it ([util.Recover]). *)
Fixpoint start_loop (reads : list (ReadResult * list string)) : M unit :=
  match reads with
  | [] => mret tt
  | (rd, ord) :: rest =>
    c ← start_body rd ord;
    match c with
    | Break => mret tt
    | Continue => start_loop rest
    end
  end.

(** *** The writer loop *)

(** What the transport answers during one iteration: whether [WriteRTP]
    failed, the value of [WriteErrTotal()], and [ID()]. *)
Record WriteAnswer := mkWriteAnswer {
  wa_err : bool;
  wa_total : Z;
  wa_id : string
}.

Definition subWriteLoop_body (trans : Transport) (pkt : Packet)
    (a : WriteAnswer) : M unit :=
  call (TWriteRTP trans pkt);;
  (if wa_err a then
     call (TWriteErrTotal trans);;
     if decide (wa_total a > maxWriteErr)%Z
     then call (TID trans);; delSub (wa_id a)
     else mret tt
   else mret tt);;
  call (TWriteErrReset trans).

(** The loop on the channel [c] it ranges over, for the answers of a run. *)
Fixpoint subWriteLoop_on (c : option nat) (trans : Transport)
    (answers : list WriteAnswer) : M unit :=
  match answers with
  | [] => mret tt
  | a :: rest =>
    r ← recv c;
    match r with
    | Received pkt =>
      subWriteLoop_body trans pkt a;; subWriteLoop_on c trans rest
    | ChanClosed | WouldBlock => mret tt
    end
  end.


(** *** The REMB aggregation loop *)

(** The locals of [rembLoop].  Times are clock readings in nanoseconds. *)
Record RembState := mkRembState {
  lastRembTime : Z;
  rembMin : Z;
  rembMax : Z;
  lowest : Z;
  rembCount : Z;
  rembTotalRate : Z
}.

(** [200 * time.Millisecond] *)
Definition maxRembTime : Z := 200 * 1000000.

(** The statements before the loop; [now] is the first clock reading. *)
Definition rembLoop_init (cfg : RouterConfig) (now : Z) : RembState :=
  {| lastRembTime := now;
     rembMin := if (MinBandwidth cfg =? 0)%Z then 10000%Z else MinBandwidth cfg;
     rembMax := if (MaxBandwidth cfg =? 0)%Z then 100000000%Z else MaxBandwidth cfg;
     lowest := MaxUint64;
     rembCount := 0;
     rembTotalRate := 0 |}.

(** One packet received from [rembChan], with the clock as read by
    [time.Since] and then by [time.Now]. *)
Record Arrival := mkArrival {
  arr_pkt : ReceiverEstimatedMaximumBitrate;
  arr_since : Z;
  arr_now : Z
}.

(** The [if]/[else if] that bounds the target. *)
Definition clamp_target (target lo hi : Z) : Z :=
  if (target <? lo)%Z then lo
  else if (target >? hi)%Z then hi
  else target.

Definition rembLoop_body (a : Arrival) (s : RembState) : M RembState :=
  let pkt := arr_pkt a in
  let count := uint64 (rembCount s + 1) in
  let total := uint64 (rembTotalRate s + Bitrate pkt) in
  let low := if (Bitrate pkt <? lowest s)%Z then Bitrate pkt else lowest s in
  if (arr_since a - lastRembTime s >? maxRembTime)%Z then
    if (count =? 0)%Z then panic DivideByZero
    else
      let avg := uint64 (total / count) in
      let target := clamp_target low (rembMin s) (rembMax s) in
      let newPkt := {| Bitrate := target; REMB_SenderSSRC := 1;
                       SSRCs := SSRCs pkt |} in
      p ← GetPub;
      match p with
      | Some _ => q ← GetPub; h ← deref q; call (TWriteRTCP h (REMB newPkt))
      | None => mret tt
      end;;
      mret {| lastRembTime := arr_now a;
              rembMin := rembMin s; rembMax := rembMax s;
              lowest := MaxUint64; rembCount := 0; rembTotalRate := 0 |}
  else
    mret {| lastRembTime := lastRembTime s;
            rembMin := rembMin s; rembMax := rembMax s;
            lowest := low; rembCount := count; rembTotalRate := total |}.

(** The loop from a given state of its locals. *)
Fixpoint rembLoop_from (arrivals : list Arrival) (s : RembState) : M RembState :=
  match arrivals with
  | [] => mret s
  | a :: rest => s' ← rembLoop_body a s; rembLoop_from rest s'
  end.

Definition rembLoop (now : Z) (arrivals : list Arrival) : M RembState :=
  w ← get;
  rembLoop_from arrivals (rembLoop_init (routerConfig w) now).

(** *** The feedback loop *)

Definition resendRTP (sid : string) (ssrc sn : Z) : M bool :=
  w ← get;
  match pub (router w) with
  | None => mret false
  | Some _ =>
    match GetPlugin (pluginChain (router w)) TypeJitterBuffer with
    | None => mret false
    | Some hd =>
      jb ← match hd with
           | JitterBufferPlugin jb => mret jb
           | RTPForwarderPlugin => panic TypeAssertion
           end;
      match GetPacket jb ssrc sn with
      | None => mret false
      | Some pkt =>
        sub ← GetSub sid;
        match sub with
        | Some s => call (TWriteRTP s pkt);; mret true
        | None => mret false
        end
      end
    end
  end.

(** The NACK the router synthesises for one pair; the bit mask of the
    original pair is not copied. *)
Definition single_nack (nack : TransportLayerNack) (nackPair : NackPair)
  : TransportLayerNack :=
  {| SenderSSRC := SenderSSRC nack;
     MediaSSRC := MediaSSRC nack;
     Nacks := [ {| PacketID := PacketID nackPair; LostPackets := 0 |} ] |}.

(** The body of [for _, nackPair := range nack.Nacks]. *)
Definition nack_pair_body (subID : string) (nack : TransportLayerNack)
    (nackPair : NackPair) : M unit :=
  ok ← resendRTP subID (MediaSSRC nack) (PacketID nackPair);
  if ok : bool then mret tt
  else
    let n := single_nack nack nackPair in
    w ← get;
    match pub (router w) with
    | Some _ => q ← GetPub; h ← deref q; call (TWriteRTCP h (NACK n))
    | None => mret tt
    end.

(** One iteration of [for pkt := range trans.GetRTCPChan()].  The send on
    [rembChan] keeps the loop waiting until [rembLoop] receives; here the
    packet joins the senders waiting on the channel and the iteration
    ends, so a run can take more iterations of a feedback loop before
    [rembLoop] receives than the program can. *)
Definition subFeedbackLoop_body (subID : string) (trans : Transport)
    (pkt : RtcpPacket) : M LoopCtl :=
  w ← get;
  if stop (router w) then mret Break
  else
    match pkt with
    | PictureLossIndication _ _ | FullIntraRequest _ _ =>
      p ← GetPub;
      match p with
      | Some _ => q ← GetPub; h ← deref q; call (TWriteRTCP h pkt)
      | None => mret tt
      end
    | REMB remb =>
      if REMBFeedback (routerConfig w)
      then modify (with_router (λ r, set_rembChan (rembChan r ++ [remb]) r))
      else mret tt
    | NACK nack => for_each (Nacks nack) (nack_pair_body subID nack)
    | OtherRtcp => mret tt
    end;;
    mret Continue.

Fixpoint subFeedbackLoop (subID : string) (trans : Transport)
    (pkts : list RtcpPacket) : M unit :=
  match pkts with
  | [] => mret tt
  | pkt :: rest =>
    c ← subFeedbackLoop_body subID trans pkt;
    match c with
    | Break => mret tt
    | Continue => subFeedbackLoop subID trans rest
    end
  end.

(** ** Runs of the router

    What can happen to a router, one atomic step each: the calls of its
    API, the callbacks it registered ([OpDelSub], [OpClose]), one iteration
    of each loop it started, and a change of the plugin chain made by
    package plugins ([OpPlugins]).  A panic unwinds to the caller of the
    step (or to [util.Recover] in the fan-out loop) and leaves the router
    in use, so a run goes on from the world the panic left.  [AddSub]
    reads [stop] before it takes [subLock], and [Close] writes [stop]
    without the lock; a step runs the test and the locked section
    together, so a run has no [AddSub] that passed the test before a
    [Close] set the flag and registers its subscriber afterwards. *)

Inductive Op :=
| OpAddPub (t : option Transport)
| OpAddSub (i : string) (t : option Transport)
| OpDelSub (i : string)
| OpClose (ord : list string)
| OpOnClose (f : option Handler)
| OpFanOut (rd : ReadResult) (ord : list string)
| OpSubWrite (c : option nat) (trans : Transport) (a : WriteAnswer)
| OpFeedback (subID : string) (trans : Transport) (pkt : RtcpPacket)
| OpRemb (s : RembState) (since now : Z)
| OpPlugins (pc : PluginChain).

Definition step (op : Op) : M unit :=
  match op with
  | OpAddPub t => AddPub t;; mret tt
  | OpAddSub i t => AddSub i t;; mret tt
  | OpDelSub i => delSub i
  | OpClose ord => Close ord
  | OpOnClose f => OnClose f
  | OpFanOut rd ord => start_body rd ord;; mret tt
  | OpSubWrite c trans a => subWriteLoop_on c trans [a]
  | OpFeedback subID trans pkt => subFeedbackLoop_body subID trans pkt;; mret tt
  | OpRemb s since now =>
    w ← get;
    match rembChan (router w) with
    | [] => mret tt
    | pkt :: rest =>
      modify (with_router (set_rembChan rest));;
      rembLoop_body (mkArrival pkt since now) s;; mret tt
    end
  | OpPlugins pc => modify (with_router (set_pluginChain pc))
  end.

Definition run (ops : list Op) (w : World) : World :=
  foldl (λ w op, (step op w).2) w ops.

(** * Definitions used by the properties *)

(** ** What the bookkeeping invariants see of a world

    The invariants of the subscriber maps depend on the two maps, the stop
    flag, the close handler, and on which channels are allocated and which
    of those are closed; not on what is buffered, nor on the trace. *)

Record Core := mkCore {
  c_subs : gmap string (option Transport);
  c_subChans : gmap string nat;
  c_stop : bool;
  c_handler : option Handler;
  c_closed : gmap nat bool
}.

Definition core (w : World) : Core :=
  {| c_subs := subs (router w);
     c_subChans := subChans (router w);
     c_stop := stop (router w);
     c_handler := onCloseHandler (router w);
     c_closed := closed <$> chans w |}.

(** What [AddSub] does to the core when the router is not stopped. *)
Definition core_addSub (i : string) (t : option Transport) (k : Core) : Core :=
  let c := fresh (dom (c_closed k)) in
  {| c_subs := <[i := t]> (c_subs k);
     c_subChans := <[i := c]> (c_subChans k);
     c_stop := c_stop k;
     c_handler := c_handler k;
     c_closed := <[c := false]> (c_closed k) |}.

(** What a [delSub] that returns does to the core. *)
Definition core_delSub (i : string) (k : Core) : Core :=
  {| c_subs := delete i (c_subs k);
     c_subChans := delete i (c_subChans k);
     c_stop := c_stop k;
     c_handler := c_handler k;
     c_closed := match c_subChans k !! i with
                 | Some c => <[c := true]> (c_closed k)
                 | None => c_closed k
                 end |}.

Definition core_set_stop (k : Core) : Core :=
  {| c_subs := c_subs k; c_subChans := c_subChans k; c_stop := true;
     c_handler := c_handler k; c_closed := c_closed k |}.

Definition core_set_handler (f : option Handler) (k : Core) : Core :=
  {| c_subs := c_subs k; c_subChans := c_subChans k; c_stop := c_stop k;
     c_handler := f; c_closed := c_closed k |}.

(** The moves of the subscriber bookkeeping ... *)
Inductive sub_move : Core → Core → Prop :=
| move_addSub i t k :
    c_stop k = false → sub_move k (core_addSub i t k)
| move_delSub i k :
    (∀ c, c_subChans k !! i = Some c → c_closed k !! c = Some false) →
    sub_move k (core_delSub i k).

(** ... and of the whole router. *)
Inductive core_move : Core → Core → Prop :=
| move_sub k k' : sub_move k k' → core_move k k'
| move_stop k : core_move k (core_set_stop k)
| move_handler f k : core_move k (core_set_handler f k).

(** [moves R m]: whatever its outcome, [m] changes the core by moves of
    [R] only. *)
Definition moves {A} (R : relation Core) (m : M A) : Prop :=
  ∀ w, rtc R (core w) (core (m w).2).

(** The steps other than [Close] and [OnClose] only add and remove
    subscribers. *)
Definition keeps_lifecycle (op : Op) : bool :=
  match op with
  | OpClose _ | OpOnClose _ => false
  | _ => true
  end.

Definition same_keys (k : Core) : Prop := dom (c_subs k) = dom (c_subChans k).

(** Every registered queue is allocated and open, and no two subscribers
    share a queue. *)
Definition wf (k : Core) : Prop :=
  (∀ i c, c_subChans k !! i = Some c → c_closed k !! c = Some false)
  ∧ (∀ i j c, c_subChans k !! i = Some c → c_subChans k !! j = Some c → i = j).

(** A queue that is open and that no subscriber is registered with. *)
Definition orphan (c : nat) (k : Core) : Prop :=
  c_closed k !! c = Some false ∧ ∀ j, c_subChans k !! j ≠ Some c.

(** (a): the packet was in the jitter buffer and was written to the
    transport registered for the subscriber, and nothing else was called. *)
Definition served_locally (w : World) (subID : string)
    (nack : TransportLayerNack) (nackPair : NackPair) (w' : World) : Prop :=
  ∃ jb pkt s,
    GetPlugin (pluginChain (router w)) TypeJitterBuffer = Some (JitterBufferPlugin jb)
    ∧ GetPacket jb (MediaSSRC nack) (PacketID nackPair) = Some pkt
    ∧ lookup_iface (subs (router w)) subID = Some s
    ∧ trace w' = trace w ++ [TWriteRTP s pkt].

(** (b): a NACK with the same two SSRCs and the single packet id was
    written to the publisher, and nothing else was called. *)
Definition forwarded_upstream (w : World)
    (nack : TransportLayerNack) (nackPair : NackPair) (w' : World) : Prop :=
  ∃ p,
    pub (router w) = Some p
    ∧ trace w' = trace w ++ [TWriteRTCP p (NACK (single_nack nack nackPair))].

(** What a non-blocking send leaves in an open queue: the packet at the
    end if there is room, the queue as it was if it is full. *)
Definition deliver (p : Packet) (ch : Chan) : Chan :=
  if decide (length (buf ch) < cap ch)
  then mkChan (buf ch ++ [p]) (cap ch) false
  else ch.

(** The packet one iteration of the fan-out loop gets from its source. *)
Definition source_packet (w : World) (rd : ReadResult) : option Packet :=
  if On (pluginChain (router w)) then rd_pkt rd
  else if rd_err rd then None else rd_pkt rd.



(** ** The REMB aggregation as the specification words it *)

Section remb_spec.
Local Open Scope Z_scope.

(** The aggregation in the words of the specification: a window of the
    arrivals since the last emission; when an arrival finds the emission
    due, the minimum bit rate of the window (that arrival included),
    clamped to the bounds, is emitted with sender SSRC 1 and the SSRC list
    of that arrival, and the window starts afresh. *)
Definition spec_clamp (x lo hi : Z) : Z := Z.max lo (Z.min x hi).

(** The least bit rate of a window; [MaxUint64] stands for +infinity. *)
Definition window_min (win : list ReceiverEstimatedMaximumBitrate) : Z :=
  foldl Z.min MaxUint64 (Bitrate <$> win).

Definition window_sum (win : list ReceiverEstimatedMaximumBitrate) : Z :=
  foldl Z.add 0 (Bitrate <$> win).

Definition remb_due (a : Arrival) (last : Z) : bool :=
  arr_since a - last >? maxRembTime.

Fixpoint spec_emissions (lo hi last : Z)
    (win : list ReceiverEstimatedMaximumBitrate) (arrivals : list Arrival)
  : list ReceiverEstimatedMaximumBitrate :=
  match arrivals with
  | [] => []
  | a :: rest =>
    let win' := win ++ [arr_pkt a] in
    if remb_due a last
    then {| REMB_SenderSSRC := 1;
            Bitrate := spec_clamp (window_min win') lo hi;
            SSRCs := SSRCs (arr_pkt a) |}
         :: spec_emissions lo hi (arr_now a) [] rest
    else spec_emissions lo hi last win' rest
  end.

(** The window left open at the end of the arrivals, and the time of the
    last emission. *)
Fixpoint spec_window (last : Z)
    (win : list ReceiverEstimatedMaximumBitrate) (arrivals : list Arrival)
  : Z * list ReceiverEstimatedMaximumBitrate :=
  match arrivals with
  | [] => (last, win)
  | a :: rest =>
    if remb_due a last
    then spec_window (arr_now a) [] rest
    else spec_window last (win ++ [arr_pkt a]) rest
  end.

(** The locals of the loop that correspond to an open window. *)
Definition stats_of (lo hi last : Z)
    (win : list ReceiverEstimatedMaximumBitrate) : RembState :=
  {| lastRembTime := last;
     rembMin := lo;
     rembMax := hi;
     lowest := window_min win;
     rembCount := uint64 (Z.of_nat (length win));
     rembTotalRate := uint64 (window_sum win) |}.

End remb_spec.

(** ** Definitions used by the further properties *)

(** A channel after [close]: what is buffered stays for the receiver. *)
Definition close_cell (ch : Chan) : Chan := mkChan (buf ch) (cap ch) true.

(** The fields of the router other than the two subscriber maps. *)
Definition router_rest (r : Router)
  : string * option Transport * bool * PluginChain
    * list ReceiverEstimatedMaximumBitrate * option Handler :=
  (id r, pub r, stop r, pluginChain r, rembChan r, onCloseHandler r).

(** Every allocated queue has the capacity [AddSub] gives it and holds no
    more than that. *)
Definition bounded_queues (w : World) : Prop :=
  ∀ c ch, chans w !! c = Some ch → cap ch = 1000 ∧ length (buf ch) ≤ cap ch.

(** [keeps I m]: whatever its outcome, [m] leaves a world that satisfies
    [I] if it started in one. *)
Definition keeps {A} (I : World → Prop) (m : M A) : Prop :=
  ∀ w, I w → I (m w).2.

(** The calls one packet of the writer loop makes when all goes well. *)
Definition written (trans : Transport) (p : Packet) : list Event :=
  [TWriteRTP trans p; TWriteErrReset trans].

(** The steps that only read the bookkeeping: attaching a publisher, one
    iteration of the fan-out, feedback and REMB loops, and a change of the
    plugin chain. *)
Definition reads_bookkeeping (op : Op) : bool :=
  match op with
  | OpAddPub _ | OpFanOut _ _ | OpFeedback _ _ _ | OpRemb _ _ _
  | OpPlugins _ => true
  | _ => false
  end.

(** No move at all. *)
Definition no_move (k k' : Core) : Prop := False.

(** The calls of one [AddPub] of transport [t]. *)
Definition attach_calls (remb : bool) (t : Transport) : list Event :=
  [ChainAttachPub (Some t)]
  ++ (if remb then [Go RembLoop] else [])
  ++ [Go FanOutLoop; TOnClose t CallClose].

(** ** Loading the configuration (package conf) *)

Definition portRangeLimit : Z := 100.

(** Arithmetic on [uint16] wraps around. *)
Definition uint16 (z : Z) : Z := (z mod 2 ^ 16)%Z.

(** What [load] comes to: the boolean it returns, or the run-time panic of
    an index out of range. *)
Inductive Loaded :=
| LoadReturned (ok : bool)
| LoadIndexOutOfRange.

(** What the environment answers during [load]: whether [os.Stat],
    [viper.ReadInConfig] and [Unmarshal] fail, and the port range that
    [Unmarshal] leaves in [c.WebRTC.ICEPortRange] (a slice of [uint16]). *)
Record LoadEnv := mkLoadEnv {
  stat_err : bool;
  read_err : bool;
  unmarshal_err : bool;
  ICEPortRange : list Z
}.

(** [Config.load]; the messages it prints are left out. *)
Definition load (env : LoadEnv) : Loaded :=
  if stat_err env then LoadReturned false
  else if read_err env then LoadReturned false
  else if unmarshal_err env then LoadReturned false
  else if decide (2 < length (ICEPortRange env)) then LoadReturned false
  else if decide (length (ICEPortRange env) ≠ 0) then
    match ICEPortRange env !! 1, ICEPortRange env !! 0 with
    | Some hi, Some lo =>
      if (uint16 (hi - lo) <=? portRangeLimit)%Z
      then LoadReturned false
      else LoadReturned true
    | _, _ => LoadIndexOutOfRange
    end
  else LoadReturned true.

(** ** The RTP forwarder plugin (package plugins) *)

Module RTPForwarder.

Record RTPForwarderConfig := mkConfig {
  cfg_On : bool;
  cfg_Addr : string;
  cfg_KcpKey : string;
  cfg_KcpSalt : string
}.

(** The transport [NewRTPForwarder] asks package transport for. *)
Inductive RTPTransport :=
| NewOutRTPTransport (mid addr : string)
| NewOutRTPTransportWithKCP (mid addr kcpKey kcpSalt : string).

Record t := mk {
  id : string;
  stop : bool;
  Transport : RTPTransport;
  outRTPChan : Chan
}.

(** The calls a forwarder makes: the goroutine that writes a packet to
    the transport, and the close of the transport. *)
Inductive Call :=
| GoWriteRTP (pkt : Packet)
| TransportClose.

(** What a method comes to: it returns, leaving a forwarder and having
    made some calls; or it waits on the channel send; or the send panics. *)
Inductive Result :=
| Returns (f : t) (calls : list Call)
| Blocks
| Panics.

(** [maxSize] is a constant of the package whose declaration is absent;
    it is taken as an argument. *)
Definition NewRTPForwarder (maxSize : nat) (i mid : string)
    (config : RTPForwarderConfig) : t :=
  {| id := i;
     stop := false;
     Transport :=
       if decide (cfg_KcpKey config ≠ "" ∧ cfg_KcpSalt config ≠ "")
       then NewOutRTPTransportWithKCP mid (cfg_Addr config)
              (cfg_KcpKey config) (cfg_KcpSalt config)
       else NewOutRTPTransport mid (cfg_Addr config);
     outRTPChan := mkChan [] maxSize false |}.

Definition ID (f : t) : string := id f.

(** [r.outRTPChan <- pkt] is a plain send: it waits while the buffer is
    full, and panics on a closed channel. *)
Definition WriteRTP (pkt : Packet) (f : t) : Result :=
  if stop f then Returns f []
  else if closed (outRTPChan f) then Panics
  else if decide (length (buf (outRTPChan f)) < cap (outRTPChan f))
  then Returns {| id := id f; stop := stop f; Transport := Transport f;
                  outRTPChan := mkChan (buf (outRTPChan f) ++ [pkt])
                                       (cap (outRTPChan f)) false |}
               [GoWriteRTP pkt]
  else Blocks.

Definition ReadRTP (f : t) : Chan := outRTPChan f.

Definition Stop (f : t) : Result :=
  Returns {| id := id f; stop := true; Transport := Transport f;
             outRTPChan := outRTPChan f |}
          [TransportClose].

(** [WriteRTP] of the packets of a list, one after the other, as long as
    each call returns. *)
Fixpoint writes (pkts : list Packet) (f : t) : Result :=
  match pkts with
  | [] => Returns f []
  | pkt :: rest =>
    match WriteRTP pkt f with
    | Returns f1 calls1 =>
      match writes rest f1 with
      | Returns f2 calls2 => Returns f2 (calls1 ++ calls2)
      | r => r
      end
    | r => r
    end
  end.

End RTPForwarder.

(** ** Worlds to try the properties on *)

Definition example_config : RouterConfig := mkRouterConfig 0 0 true.

(** A router with a publisher, a close handler and two subscribers. *)
Definition example_running : World :=
  run [OpAddPub (Some 9); OpOnClose (Some 1);
       OpAddSub "a" (Some 2); OpAddSub "b" (Some 3)]
      (NewWorld "r" example_config).

(** The same router after [Close]. *)
Definition example_closed : World := run [OpClose []] example_running.

(** * Properties *)

(** ** Running a computation *)

Lemma run_mret {A} (a : A) (w : World) : (mret a : M A) w = (Returned a, w).
Proof. reflexivity. Qed.

Lemma run_bind {A B} (m : M A) (k : A → M B) (w : World) :
  ((m ≫= k) : M B) w =
  match m w with
  | (Returned a, w') => k a w'
  | (Panicked p, w') => (Panicked p, w')
  end.
Proof. reflexivity. Qed.

Lemma run_bind_returned {A B} (m : M A) (k : A → M B) w a w' :
  m w = (Returned a, w') → ((m ≫= k) : M B) w = k a w'.
Proof. intros H. rewrite run_bind, H. reflexivity. Qed.

Lemma run_bind_panicked {A B} (m : M A) (k : A → M B) w p w' :
  m w = (Panicked p, w') → ((m ≫= k) : M B) w = (Panicked p, w').
Proof. intros H. rewrite run_bind, H. reflexivity. Qed.

Lemma run_get (w : World) : get w = (Returned w, w).
Proof. reflexivity. Qed.

Lemma run_modify (f : World → World) (w : World) :
  modify f w = (Returned tt, f w).
Proof. reflexivity. Qed.


Ltac run_go :=
  cbv [mbind mret M_bind M_ret get modify call panic deref
       GetPub GetSub GetSubs] in *;
  cbn [fst snd] in *.

Lemma run_nil (w : World) : run [] w = w.
Proof. reflexivity. Qed.

Lemma run_cons (op : Op) (ops : list Op) (w : World) :
  run (op :: ops) w = run ops (step op w).2.
Proof. reflexivity. Qed.

Lemma run_app (ops1 ops2 : list Op) (w : World) :
  run (ops1 ++ ops2) w = run ops2 (run ops1 w).
Proof. unfold run. apply foldl_app. Qed.

Lemma run_snoc (ops : list Op) (op : Op) (w : World) :
  run (ops ++ [op]) w = (step op (run ops w)).2.
Proof. rewrite run_app. reflexivity. Qed.

(** An induction principle that follows a run forwards. *)
Lemma run_ind (P : World → Prop) (w : World) :
  P w →
  (∀ op w', P w' → P (step op w').2) →
  ∀ ops, P (run ops w).
Proof.
  intros H0 Hstep ops. induction ops as [|op ops IH] using rev_ind.
  - exact H0.
  - rewrite run_snoc. apply Hstep, IH.
Qed.

(** ** C3: the bounds of the REMB loop *)

Section remb_bounds.
Local Open Scope Z_scope.

Lemma rembLoop_body_bounds a s w s' w' :
  rembLoop_body a s w = (Returned s', w') →
  rembMin s' = rembMin s ∧ rembMax s' = rembMax s.
Proof.
  unfold rembLoop_body.
  destruct (arr_since a - lastRembTime s >? maxRembTime).
  - destruct (uint64 (rembCount s + 1) =? 0); [discriminate|].
    run_go. destruct (pub (router w)) eqn:E; run_go; rewrite ?E;
      intros [= <- _]; done.
  - intros [= <- _]; done.
Qed.

Lemma rembLoop_from_bounds arrivals : ∀ s w s' w',
  rembLoop_from arrivals s w = (Returned s', w') →
  rembMin s' = rembMin s ∧ rembMax s' = rembMax s.
Proof.
  induction arrivals as [|a rest IH]; intros s w s' w'; cbn [rembLoop_from].
  - intros [= <- _]; done.
  - rewrite run_bind.
    destruct (rembLoop_body a s w) as [[s1|p] w1] eqn:E; [|discriminate].
    intros H. apply IH in H as [-> ->].
    by apply rembLoop_body_bounds in E.
Qed.

(** C3 as stated fails: a configured minimum below 10000 is used as it
    is, where the maximum of the two would be 10000. *)
Lemma rembLoop_bounds_not_max :
  let cfg := mkRouterConfig 5000 0 true in
  ¬ (rembMin (rembLoop_init cfg 0) = Z.max (MinBandwidth cfg) 10000
     ∧ rembMax (rembLoop_init cfg 0) =
         if decide (MaxBandwidth cfg = 0) then 100000000 else MaxBandwidth cfg).
Proof. cbn. intros [H _]. discriminate H. Qed.

(** C3, amended: in the REMB loop [rembMin] is the configured
    [MinBandwidth] when that is nonzero and 10000 otherwise, [rembMax] is
    the configured [MaxBandwidth] when that is nonzero and 100000000
    otherwise, for every configuration; the two locals keep these values
    through every iteration.  [rembMin] is the maximum of [MinBandwidth]
    and 10000 exactly when [MinBandwidth] is zero or at least 10000. *)
Theorem rembLoop_bounds (cfg : RouterConfig) (now : Z)
    (arrivals : list Arrival) (w : World) :
  let lo := if decide (MinBandwidth cfg = 0) then 10000 else MinBandwidth cfg in
  let hi := if decide (MaxBandwidth cfg = 0) then 100000000 else MaxBandwidth cfg in
  rembMin (rembLoop_init cfg now) = lo
  ∧ rembMax (rembLoop_init cfg now) = hi
  ∧ match rembLoop_from arrivals (rembLoop_init cfg now) w with
    | (Returned s, _) => rembMin s = lo ∧ rembMax s = hi
    | (Panicked _, _) => True
    end
  ∧ (lo = Z.max (MinBandwidth cfg) 10000
     ↔ MinBandwidth cfg = 0 ∨ 10000 ≤ MinBandwidth cfg).
Proof.
  intros lo hi.
  assert (Hlo : rembMin (rembLoop_init cfg now) = lo).
  { subst lo. cbn. destruct (Z.eqb_spec (MinBandwidth cfg) 0);
      case_decide; done. }
  assert (Hhi : rembMax (rembLoop_init cfg now) = hi).
  { subst hi. cbn. destruct (Z.eqb_spec (MaxBandwidth cfg) 0);
      case_decide; done. }
  split_and!; [done|done| |].
  - destruct (rembLoop_from _ _ _) as [[s|p] w'] eqn:E; [|done].
    apply rembLoop_from_bounds in E as [-> ->]. done.
  - subst lo. case_decide; lia.
Qed.
End remb_bounds.

(** ** How each operation moves the core *)

Section moves.
Context (R : relation Core).

Lemma moves_mret {A} (a : A) : moves R (mret a : M A).
Proof. intros w. apply rtc_refl. Qed.

Lemma moves_panic {A} (p : Panic) : moves R (panic p : M A).
Proof. intros w. apply rtc_refl. Qed.

Lemma moves_get : moves R get.
Proof. intros w. apply rtc_refl. Qed.

Lemma moves_call (e : Event) : moves R (call e).
Proof. intros w. apply rtc_refl. Qed.

Lemma moves_deref (t : option Transport) : moves R (deref t).
Proof. destruct t; [apply moves_mret | apply moves_panic]. Qed.

Lemma moves_bind {A B} (m : M A) (k : A → M B) :
  moves R m → (∀ a, moves R (k a)) → moves R (m ≫= k).
Proof.
  intros Hm Hk w. rewrite run_bind. specialize (Hm w).
  destruct (m w) as [[a|p] w1]; cbn [snd] in *; [|done].
  etrans; [exact Hm | apply Hk].
Qed.

Lemma moves_for_each {A} (xs : list A) (body : A → M unit) :
  (∀ x, moves R (body x)) → moves R (for_each xs body).
Proof.
  intros Hb. induction xs as [|x xs IH]; cbn [for_each].
  - apply moves_mret.
  - apply moves_bind; [apply Hb | intros _; apply IH].
Qed.

Lemma moves_modify_same (f : World → World) :
  (∀ w, core (f w) = core w) → moves R (modify f).
Proof. intros Hf w. rewrite run_modify; cbn [snd]. by rewrite Hf. Qed.
End moves.

Lemma moves_mono {A} (R R' : relation Core) (m : M A) :
  (∀ k k', R k k' → R' k k') → moves R m → moves R' m.
Proof. intros HR Hm w. eapply rtc_subrel; [exact HR | apply Hm]. Qed.

Lemma closed_fmap_insert_same (h : nat) (ch ch' : Chan) (m : gmap nat Chan) :
  m !! h = Some ch → closed ch' = closed ch →
  closed <$> <[h := ch']> m = closed <$> m.
Proof.
  intros Hh Hc. rewrite fmap_insert. apply insert_id.
  by rewrite lookup_fmap, Hh, Hc.
Qed.

Lemma chan_lookup_Some (w : World) (c : option nat) (h : nat) (ch : Chan) :
  (c ≫= λ h, chans w !! h ≫= λ ch, Some (h, ch)) = Some (h, ch) →
  c = Some h ∧ chans w !! h = Some ch.
Proof.
  destruct c as [h'|]; cbn; [|done].
  destruct (chans w !! h') as [ch'|] eqn:E; cbn; [|done].
  by intros [= <- <-].
Qed.

Lemma try_send_core (c : option nat) (p : Packet) (w : World) :
  core (try_send c p w).2 = core w.
Proof.
  unfold try_send.
  destruct (c ≫= _) as [[h ch]|] eqn:E; [|done].
  apply chan_lookup_Some in E as [_ Hh].
  destruct (closed ch) eqn:Hc; [done|].
  case_decide; [|done]. cbn. unfold core; cbn. f_equal.
  by apply (closed_fmap_insert_same _ ch).
Qed.

Lemma recv_core (c : option nat) (w : World) : core (recv c w).2 = core w.
Proof.
  unfold recv.
  destruct (c ≫= _) as [[h ch]|] eqn:E; [|done].
  apply chan_lookup_Some in E as [_ Hh].
  destruct (buf ch); [done|]. cbn. unfold core; cbn. f_equal.
  by apply (closed_fmap_insert_same _ ch).
Qed.

Lemma moves_try_send R c p : moves R (try_send c p).
Proof. intros w. rewrite try_send_core. apply rtc_refl. Qed.

Lemma moves_recv R c : moves R (recv c).
Proof. intros w. rewrite recv_core. apply rtc_refl. Qed.

Lemma rtc_delSub_to (i : string) (k k' : Core) :
  k' = core_delSub i k →
  (∀ c, c_subChans k !! i = Some c → c_closed k !! c = Some false) →
  rtc sub_move k k'.
Proof. intros -> H. by apply rtc_once, move_delSub. Qed.

Lemma delSub_moves (i : string) : moves sub_move (delSub i).
Proof.
  intros w. unfold delSub. run_go.
  destruct (lookup_iface (subs (router w)) i) as [t|] eqn:Et; run_go;
    (destruct (subChans (router w) !! i) as [c|] eqn:Ec; run_go;
     [ unfold close_chan; cbn [chans emit];
       destruct (chans w !! c) as [ch|] eqn:Eh; [|apply rtc_refl];
       destruct (closed ch) eqn:Ecl; [apply rtc_refl|]; cbn [snd]
     | ]);
    apply (rtc_delSub_to i); unfold core_delSub, core; cbn; rewrite ?Ec;
    try (f_equal; by rewrite ?fmap_insert);
    intros c'; try done; intros [= <-];
    by rewrite lookup_fmap, Eh, <- Ecl.
Qed.

Lemma rtc_addSub_to (i : string) (t : option Transport) (k k' : Core) :
  k' = core_addSub i t k → c_stop k = false → rtc sub_move k k'.
Proof. intros -> H. by apply rtc_once, move_addSub. Qed.

Lemma AddSub_moves (i : string) (t : option Transport) :
  moves sub_move (AddSub i t).
Proof.
  intros w. unfold AddSub. run_go.
  destruct (stop (router w)) eqn:Es; [apply rtc_refl|].
  unfold make_chan. cbn.
  assert (Hdom : dom (closed <$> chans w) = dom (chans w)) by apply dom_fmap_L.
  destruct t as [h|]; cbn;
    [apply (rtc_addSub_to i (Some h)) | apply (rtc_addSub_to i None)];
    try exact Es;
    unfold core_addSub, core; cbn; rewrite Hdom; f_equal;
    by rewrite fmap_insert.
Qed.

Lemma start_moves R : moves R start.
Proof.
  unfold start. apply moves_bind; [apply moves_get|]. intros w.
  apply moves_bind; [|intros _; apply moves_call].
  destruct (REMBFeedback _); [apply moves_call | apply moves_mret].
Qed.

Lemma AddPub_moves R (t : option Transport) : moves R (AddPub t).
Proof.
  unfold AddPub.
  apply moves_bind; [by apply moves_modify_same|]. intros _.
  apply moves_bind; [apply moves_call|]. intros _.
  apply moves_bind; [apply start_moves|]. intros _.
  apply moves_bind; [apply moves_deref|]. intros h.
  apply moves_bind; [apply moves_call|]. intros _. apply moves_mret.
Qed.

Lemma delSubs_moves (ord : list string) : moves sub_move (delSubs ord).
Proof.
  unfold delSubs. apply moves_bind; [apply moves_get|]. intros w.
  apply moves_for_each. intros i. apply delSub_moves.
Qed.

Lemma delPub_moves R : moves R delPub.
Proof.
  unfold delPub. apply moves_bind; [apply moves_get|]. intros w.
  apply moves_bind; [apply moves_deref|]. intros p.
  apply moves_bind; [apply moves_call|]. intros _.
  apply moves_bind.
  { destruct (pub (router w)); [apply moves_call | apply moves_mret]. }
  intros _. apply moves_bind; [apply moves_call|]. intros _.
  by apply moves_modify_same.
Qed.

Lemma Close_moves (ord : list string) : moves core_move (Close ord).
Proof.
  unfold Close. apply moves_bind; [apply moves_get|]. intros w.
  destruct (stop (router w)); [apply moves_mret|].
  apply moves_bind.
  { destruct (onCloseHandler (router w)); [apply moves_call | apply moves_panic]. }
  intros _. apply moves_bind; [apply delPub_moves|]. intros _.
  apply moves_bind.
  { intros w'. rewrite run_modify. apply rtc_once, move_stop. }
  intros _. eapply moves_mono; [|apply delSubs_moves].
  intros k k'. apply move_sub.
Qed.

Lemma OnClose_moves (f : option Handler) : moves core_move (OnClose f).
Proof. intros w. apply rtc_once, (move_handler f). Qed.

Lemma fanout_moves R (ord : list string) (pkt : Packet) : moves R (fanout ord pkt).
Proof.
  unfold fanout, GetSubs. apply moves_bind.
  { apply moves_bind; [apply moves_get | intros w; apply moves_mret]. }
  intros m. apply moves_for_each. intros i.
  apply moves_bind; [apply moves_get|]. intros w.
  apply moves_bind; [apply moves_try_send | intros _; apply moves_mret].
Qed.

Lemma start_body_moves R rd ord : moves R (start_body rd ord).
Proof.
  unfold start_body. apply moves_bind; [apply moves_get|]. intros w.
  destruct (stop (router w)); [apply moves_mret|].
  apply moves_bind.
  - destruct (On _).
    + apply moves_bind; [apply moves_call | intros _; apply moves_mret].
    + apply moves_bind; [apply moves_deref|]. intros p.
      apply moves_bind; [apply moves_call | intros _; apply moves_mret].
  - intros [p|]; [|apply moves_mret].
    apply moves_bind; [apply fanout_moves | intros _; apply moves_mret].
Qed.

Lemma subWriteLoop_body_moves trans pkt a :
  moves sub_move (subWriteLoop_body trans pkt a).
Proof.
  unfold subWriteLoop_body.
  apply moves_bind; [apply moves_call|]. intros _.
  apply moves_bind; [|intros _; apply moves_call].
  destruct (wa_err a); [|apply moves_mret].
  apply moves_bind; [apply moves_call|]. intros _.
  case_decide; [|apply moves_mret].
  apply moves_bind; [apply moves_call | intros _; apply delSub_moves].
Qed.

Lemma subWriteLoop_on_moves c trans answers :
  moves sub_move (subWriteLoop_on c trans answers).
Proof.
  induction answers as [|a rest IH]; cbn [subWriteLoop_on]; [apply moves_mret|].
  apply moves_bind; [apply moves_recv|]. intros [pkt| |]; try apply moves_mret.
  apply moves_bind; [apply subWriteLoop_body_moves | intros _; apply IH].
Qed.

Lemma rembLoop_body_moves R a s : moves R (rembLoop_body a s).
Proof.
  unfold rembLoop_body.
  destruct (_ >? _)%Z; [|apply moves_mret].
  destruct (_ =? _)%Z; [apply moves_panic|].
  unfold GetPub.
  apply moves_bind.
  { apply moves_bind; [apply moves_get | intros w; apply moves_mret]. }
  intros p. apply moves_bind; [|intros _; apply moves_mret].
  destruct p; [|apply moves_mret].
  apply moves_bind.
  { apply moves_bind; [apply moves_get | intros w; apply moves_mret]. }
  intros q. apply moves_bind; [apply moves_deref | intros h; apply moves_call].
Qed.

Lemma resendRTP_moves R sid ssrc sn : moves R (resendRTP sid ssrc sn).
Proof.
  unfold resendRTP. apply moves_bind; [apply moves_get|]. intros w.
  destruct (pub (router w)); [|apply moves_mret].
  destruct (GetPlugin _ _) as [hd|]; [|apply moves_mret].
  apply moves_bind.
  { destruct hd; [apply moves_mret | apply moves_panic]. }
  intros jb. destruct (GetPacket jb ssrc sn); [|apply moves_mret].
  unfold GetSub. apply moves_bind.
  { apply moves_bind; [apply moves_get | intros w'; apply moves_mret]. }
  intros [s|]; [|apply moves_mret].
  apply moves_bind; [apply moves_call | intros _; apply moves_mret].
Qed.

Lemma nack_pair_body_moves R subID nack nackPair :
  moves R (nack_pair_body subID nack nackPair).
Proof.
  unfold nack_pair_body. apply moves_bind; [apply resendRTP_moves|].
  intros [|]; [apply moves_mret|].
  apply moves_bind; [apply moves_get|]. intros w.
  destruct (pub (router w)); [|apply moves_mret].
  unfold GetPub. apply moves_bind.
  { apply moves_bind; [apply moves_get | intros w'; apply moves_mret]. }
  intros q. apply moves_bind; [apply moves_deref | intros h; apply moves_call].
Qed.

Lemma subFeedbackLoop_body_moves R subID trans pkt :
  moves R (subFeedbackLoop_body subID trans pkt).
Proof.
  unfold subFeedbackLoop_body. apply moves_bind; [apply moves_get|]. intros w.
  destruct (stop (router w)); [apply moves_mret|].
  apply moves_bind; [|intros _; apply moves_mret].
  assert (Hkey : moves R
    (GetPub ≫= λ p, match p with
                    | Some _ => GetPub ≫= λ q, deref q ≫= λ h, call (TWriteRTCP h pkt)
                    | None => mret tt
                    end)).
  { unfold GetPub. apply moves_bind.
    { apply moves_bind; [apply moves_get | intros w'; apply moves_mret]. }
    intros [p|]; [|apply moves_mret]. apply moves_bind.
    { apply moves_bind; [apply moves_get | intros w'; apply moves_mret]. }
    intros q. apply moves_bind; [apply moves_deref | intros h; apply moves_call]. }
  destruct pkt as [s m|s m|remb|nack|]; try exact Hkey.
  - destruct (REMBFeedback _); [by apply moves_modify_same | apply moves_mret].
  - apply moves_for_each. intros np. apply nack_pair_body_moves.
  - apply moves_mret.
Qed.

(** Every step of a run is a sequence of moves. *)
Lemma step_moves (op : Op) : moves core_move (step op).
Proof.
  assert (Hsub : ∀ k k', sub_move k k' → core_move k k') by apply move_sub.
  destruct op; cbn [step].
  - apply moves_bind; [apply AddPub_moves | intros _; apply moves_mret].
  - apply moves_bind; [|intros _; apply moves_mret].
    eapply moves_mono; [exact Hsub | apply AddSub_moves].
  - eapply moves_mono; [exact Hsub | apply delSub_moves].
  - apply Close_moves.
  - apply OnClose_moves.
  - apply moves_bind; [apply start_body_moves | intros _; apply moves_mret].
  - eapply moves_mono; [exact Hsub | apply subWriteLoop_on_moves].
  - apply moves_bind; [apply subFeedbackLoop_body_moves | intros _; apply moves_mret].
  - apply moves_bind; [apply moves_get|]. intros w.
    destruct (rembChan (router w)); [apply moves_mret|].
    apply moves_bind; [by apply moves_modify_same|]. intros _.
    apply moves_bind; [apply rembLoop_body_moves | intros _; apply moves_mret].
  - by apply moves_modify_same.
Qed.

Lemma step_sub_moves (op : Op) :
  keeps_lifecycle op = true → moves sub_move (step op).
Proof.
  destruct op; cbn [step keeps_lifecycle]; try discriminate; intros _.
  - apply moves_bind; [apply AddPub_moves | intros _; apply moves_mret].
  - apply moves_bind; [apply AddSub_moves | intros _; apply moves_mret].
  - apply delSub_moves.
  - apply moves_bind; [apply start_body_moves | intros _; apply moves_mret].
  - apply subWriteLoop_on_moves.
  - apply moves_bind; [apply subFeedbackLoop_body_moves | intros _; apply moves_mret].
  - apply moves_bind; [apply moves_get|]. intros w.
    destruct (rembChan (router w)); [apply moves_mret|].
    apply moves_bind; [by apply moves_modify_same|]. intros _.
    apply moves_bind; [apply rembLoop_body_moves | intros _; apply moves_mret].
  - by apply moves_modify_same.
Qed.

(** A property of cores kept by every move holds along every run. *)
Lemma run_core_inv (P : Core → Prop) (ops : list Op) (w : World) :
  (∀ k k', core_move k k' → P k → P k') →
  P (core w) → P (core (run ops w)).
Proof.
  intros Hmove H0. apply (run_ind (λ w', P (core w'))); [exact H0|].
  intros op w' Hw'. generalize (step_moves op w').
  generalize (core (step op w').2). generalize dependent (core w').
  intros k Hk k' Hrtc. induction Hrtc; eauto.
Qed.

Lemma sub_move_lifecycle (k k' : Core) :
  rtc sub_move k k' → c_stop k' = c_stop k ∧ c_handler k' = c_handler k.
Proof.
  induction 1 as [|k1 k2 k3 Hm _ [IHs IHh]]; [done|].
  rewrite IHs, IHh. by destruct Hm.
Qed.

Lemma run_lifecycle (ops : list Op) (w : World) :
  forallb keeps_lifecycle ops = true →
  stop (router (run ops w)) = stop (router w)
  ∧ onCloseHandler (router (run ops w)) = onCloseHandler (router w).
Proof.
  induction ops as [|op ops IH] using rev_ind; [done|].
  rewrite forallb_app; cbn. rewrite andb_true_r.
  intros [Hops Hop]%andb_true_iff. rewrite run_snoc.
  destruct (IH Hops) as [<- <-].
  apply (sub_move_lifecycle (core (run ops w)) (core (step op (run ops w)).2)).
  by apply step_sub_moves.
Qed.

(** ** C5: [AddSub] on a stopped router *)

(** C5: on a router whose stop flag is set, [AddSub] returns nil and
    leaves the world as it was: no entry in either map, no channel
    allocated, no callback registered and no task started (the heap and
    the trace are part of the world). *)
Theorem AddSub_stopped (i : string) (t : option Transport) (w : World) :
  stop (router w) = true →
  AddSub i t w = (Returned None, w).
Proof. intros Hs. unfold AddSub. run_go. by rewrite Hs. Qed.

(** ** C7: [Close] twice *)





(** ** C9: [Close] without a handler *)

Lemma Close_nil_handler (ord : list string) (w : World) :
  stop (router w) = false → onCloseHandler (router w) = None →
  Close ord w = (Panicked NilFuncCall, w).
Proof. intros Hs Hh. unfold Close. run_go. by rewrite Hs, Hh. Qed.

(** C9: on a router on which neither [OnClose] nor [Close] has been
    called, whatever else has happened to it, [Close] calls the nil
    handler: it panics, and the world is the one it found, so neither the
    publisher nor any subscriber has been torn down. *)
Theorem Close_without_handler (i : string) (cfg : RouterConfig)
    (ops : list Op) (ord : list string) :
  forallb keeps_lifecycle ops = true →
  Close ord (run ops (NewWorld i cfg))
  = (Panicked NilFuncCall, run ops (NewWorld i cfg)).
Proof.
  intros Hops. destruct (run_lifecycle ops (NewWorld i cfg) Hops) as [Hs Hh].
  by apply Close_nil_handler.
Qed.

(** ** C6: the two maps have the same keys *)

Lemma core_move_same_keys (k k' : Core) :
  core_move k k' → same_keys k → same_keys k'.
Proof.
  unfold same_keys. intros Hm Hk.
  destruct Hm as [k k' Hs|k|f k]; [|done|done].
  destruct Hs as [i t k0 _|i k0 _]; cbn.
  - by rewrite !dom_insert_L, Hk.
  - by rewrite !dom_delete_L, Hk.
Qed.

Lemma same_keys_run (i : string) (cfg : RouterConfig) (ops : list Op) :
  same_keys (core (run ops (NewWorld i cfg))).
Proof.
  apply (run_core_inv same_keys ops (NewWorld i cfg) core_move_same_keys).
  unfold same_keys; cbn. by rewrite !dom_empty_L.
Qed.

(** C6: from a new router, after every sequence of operations ([AddSub]
    and [delSub] among them) the subscriber map and the map of egress
    queues have the same key set. *)
Theorem subs_subChans_same_keys (i : string) (cfg : RouterConfig)
    (ops : list Op) :
  dom (subs (router (run ops (NewWorld i cfg))))
  = dom (subChans (router (run ops (NewWorld i cfg)))).
Proof. exact (same_keys_run i cfg ops). Qed.

(** ** What [delSub] does *)

(** [delSub] of a subscriber whose queue is open. *)
Lemma delSub_present (i : string) (w : World) (t : Transport) (c : nat) (ch : Chan) :
  lookup_iface (subs (router w)) i = Some t →
  subChans (router w) !! i = Some c →
  chans w !! c = Some ch → closed ch = false →
  delSub i w =
  (Returned tt,
   with_router (λ r, set_subChans (delete i (subChans r)) r)
     (with_router (λ r, set_subs (delete i (subs r)) r)
        (with_chans (<[c := mkChan (buf ch) (cap ch) true]>)
           (emit (TClose t) w)))).
Proof.
  intros Ht Hc Hch Hcl. unfold delSub. run_go. rewrite Ht, Hc. run_go.
  unfold close_chan. cbn [chans emit]. by rewrite Hch, Hcl.
Qed.

Lemma world_eta (w : World) (r : Router) (h : gmap nat Chan) (tr : list Event) :
  r = router w → h = chans w → tr = trace w →
  {| router := r; chans := h; routerConfig := routerConfig w; trace := tr |} = w.
Proof. intros -> -> ->. by destruct w. Qed.

Lemma router_eta (r : Router) (m : gmap string (option Transport))
    (n : gmap string nat) :
  m = subs r → n = subChans r →
  {| id := id r; pub := pub r; subs := m; stop := stop r;
     pluginChain := pluginChain r; subChans := n; rembChan := rembChan r;
     onCloseHandler := onCloseHandler r |} = r.
Proof. intros -> ->. by destruct r. Qed.

Lemma lookup_iface_None (m : gmap string (option Transport)) (i : string) :
  m !! i = None → lookup_iface m i = None.
Proof. unfold lookup_iface. by intros ->. Qed.

(** [delSub] of an id that is in neither map. *)
Lemma delSub_absent (i : string) (w : World) :
  subs (router w) !! i = None → subChans (router w) !! i = None →
  delSub i w = (Returned tt, w).
Proof.
  intros Hs Hc. unfold delSub. run_go.
  rewrite (lookup_iface_None _ _ Hs), Hc. run_go. f_equal.
  unfold with_router, set_subs, set_subChans; cbn.
  apply world_eta; try done. apply router_eta; by rewrite delete_id.
Qed.

(** [delSub] when the queue registered under the id, if any, is open. *)
Lemma delSub_open (i : string) (w : World) :
  (∀ c, subChans (router w) !! i = Some c →
        ∃ ch, chans w !! c = Some ch ∧ closed ch = false) →
  ∃ w', delSub i w = (Returned tt, w')
    ∧ subs (router w') = delete i (subs (router w))
    ∧ subChans (router w') = delete i (subChans (router w))
    ∧ router_rest (router w') = router_rest (router w)
    ∧ chans w' = match subChans (router w) !! i with
                 | Some c => alter close_cell c (chans w)
                 | None => chans w
                 end
    ∧ trace w' = trace w ++ match lookup_iface (subs (router w)) i with
                            | Some t => [TClose t]
                            | None => []
                            end.
Proof.
  intros Hopen. unfold delSub. run_go.
  destruct (subChans (router w) !! i) as [c|] eqn:Ec.
  - destruct (Hopen c eq_refl) as (ch & Hch & Hcl).
    assert (Halter : alter close_cell c (chans w)
                     = <[c := mkChan (buf ch) (cap ch) true]> (chans w)).
    { apply map_eq. intros c'. rewrite lookup_alter.
      case_decide as E; [subst c'|].
      - by rewrite lookup_insert_eq, Hch.
      - by rewrite lookup_insert_ne. }
    destruct (lookup_iface (subs (router w)) i) as [t|] eqn:Et; run_go;
      unfold close_chan; cbn [chans emit]; rewrite Hch, Hcl; cbn;
      eexists; split_and!; try done; by rewrite ?app_nil_r.
  - destruct (lookup_iface (subs (router w)) i) as [t|] eqn:Et; run_go;
      eexists; split_and!; try done; by rewrite ?app_nil_r.
Qed.

Lemma chan_eta (ch : Chan) : mkChan (buf ch) (cap ch) (closed ch) = ch.
Proof. by destruct ch. Qed.

(** ** C1: a NACK pair is served locally or forwarded *)

Lemma GetPlugin_jitter (pc : PluginChain) (hd : Plugin) :
  GetPlugin pc TypeJitterBuffer = Some hd → ∃ jb, hd = JitterBufferPlugin jb.
Proof.
  unfold GetPlugin.
  destruct (list_find _ _) as [[n p]|] eqn:E; cbn; [|done].
  intros [= <-]. apply list_find_Some in E as (_ & Hp & _).
  destruct p; [eauto | discriminate Hp].
Qed.

Lemma served_not_forwarded w subID nack nackPair w' :
  served_locally w subID nack nackPair w' →
  ¬ forwarded_upstream w nack nackPair w'.
Proof.
  intros (jb & pkt & s & _ & _ & _ & Ht) (p & _ & Ht').
  rewrite Ht in Ht'. by apply app_inv_head in Ht'.
Qed.

(** C1 as stated fails: a subscriber of a router without publisher sends
    a NACK; the packet is neither resent nor is a NACK forwarded. *)
Lemma nack_pair_neither :
  let w := run [OpAddSub "s" (Some 1)] (NewWorld "r" (mkRouterConfig 0 0 false)) in
  let nack := mkNack 7 8 [mkNackPair 42 0] in
  let w' := (nack_pair_body "s" nack (mkNackPair 42 0) w).2 in
  ¬ (served_locally w "s" nack (mkNackPair 42 0) w'
     ∨ forwarded_upstream w nack (mkNackPair 42 0) w').
Proof.
  intros w nack w' [(jb & pkt & s & Hp & _)|(p & Hp & _)]; discriminate Hp.
Qed.

(** C1, amended: handling one NACK pair of a subscriber returns and
    changes neither the router nor any channel.  When the router has a
    publisher, exactly one of these happens, never both: (a) the packet is
    found in the jitter buffer and written to that subscriber only, with
    no NACK sent upstream, or (b) a NACK with the same [SenderSSRC] and
    [MediaSSRC] and that pair's [PacketID] alone is written to the
    publisher.  When the publisher is nil, nothing is written. *)
Theorem nack_pair_served_or_forwarded (w : World) (subID : string)
    (nack : TransportLayerNack) (nackPair : NackPair) :
  ∃ w', nack_pair_body subID nack nackPair w = (Returned tt, w')
    ∧ router w' = router w ∧ chans w' = chans w
    ∧ match pub (router w) with
      | None => trace w' = trace w
      | Some _ =>
        (served_locally w subID nack nackPair w'
         ∧ ¬ forwarded_upstream w nack nackPair w')
        ∨ (forwarded_upstream w nack nackPair w'
           ∧ ¬ served_locally w subID nack nackPair w')
      end.
Proof.
  unfold nack_pair_body, resendRTP. run_go.
  destruct (pub (router w)) as [p|] eqn:Ep; run_go; rewrite ?Ep; run_go;
    [|by eexists].
  assert (Hfwd : ∀ w1, router w1 = router w → trace w1 = trace w ++
            [TWriteRTCP p (NACK (single_nack nack nackPair))] →
            forwarded_upstream w nack nackPair w1) by (intros; by exists p).
  destruct (GetPlugin _ _) as [hd|] eqn:Eg; run_go; rewrite ?Ep; run_go.
  - destruct (GetPlugin_jitter _ _ Eg) as [jb ->]. run_go.
    destruct (GetPacket jb _ _) as [pkt|] eqn:Ek; run_go; rewrite ?Ep; run_go.
    + destruct (lookup_iface _ _) as [s|] eqn:Es; run_go; rewrite ?Ep; run_go.
      * eexists; split_and!; try done. left.
        assert (Hs : served_locally w subID nack nackPair
                       (emit (TWriteRTP s pkt) w)) by (by exists jb, pkt, s).
        split; [exact Hs | by apply (served_not_forwarded _ subID)].
      * eexists; split_and!; try done. right.
        split; [by apply Hfwd|]. intros (? & ? & ? & _ & _ & Hs' & _).
        unfold GetSub in Es. congruence.
    + eexists; split_and!; try done. right.
      split; [by apply Hfwd|]. intros (jb' & ? & ? & Hg & Hk & _).
      congruence.
  - eexists; split_and!; try done. right.
    split; [by apply Hfwd|]. intros (? & ? & ? & Hg & _). congruence.
Qed.

(** ** C2: what the REMB loop emits *)

Section remb.
Local Open Scope Z_scope.

Lemma window_min_snoc win p :
  window_min (win ++ [p]) = Z.min (window_min win) (Bitrate p).
Proof. unfold window_min. by rewrite fmap_app, foldl_app. Qed.

Lemma window_sum_snoc win p :
  window_sum (win ++ [p]) = window_sum win + Bitrate p.
Proof. unfold window_sum. by rewrite fmap_app, foldl_app. Qed.

Lemma foldl_min_le (l : list Z) (m : Z) : foldl Z.min m l ≤ m.
Proof.
  revert m. induction l as [|x l IH]; intros m; cbn; [lia|].
  specialize (IH (Z.min m x)). lia.
Qed.

Lemma foldl_min_lower (l : list Z) (m b : Z) :
  b ∈ l → foldl Z.min m l ≤ b.
Proof.
  revert m. induction l as [|x l IH]; intros m Hb; [by apply elem_of_nil in Hb|].
  apply elem_of_cons in Hb as [->|Hb]; cbn.
  - pose proof (foldl_min_le l (Z.min m x)). lia.
  - by apply IH.
Qed.

Lemma foldl_min_elem (l : list Z) (m : Z) :
  foldl Z.min m l = m ∨ foldl Z.min m l ∈ l.
Proof.
  revert m. induction l as [|x l IH]; intros m; cbn; [by left|].
  destruct (IH (Z.min m x)) as [H|H].
  - rewrite H. destruct (Z.min_spec m x) as [[_ ->]|[_ ->]]; [by left|].
    right. apply elem_of_cons. by left.
  - right. apply elem_of_cons. by right.
Qed.

(** [window_min] is the least bit rate of a window of [uint64] values
    that is not empty. *)
Lemma window_min_least win :
  win ≠ [] → Forall (λ p, is_uint64 (Bitrate p)) win →
  window_min win ∈ (Bitrate <$> win)
  ∧ ∀ p, p ∈ win → window_min win ≤ Bitrate p.
Proof.
  intros Hne Hall. unfold window_min. split.
  - destruct (foldl_min_elem (Bitrate <$> win) MaxUint64) as [H|H]; [|done].
    destruct win as [|p win]; [done|]. rewrite H.
    apply Forall_cons in Hall as [[_ Hp] _].
    assert (Hle : foldl Z.min MaxUint64 (Bitrate <$> p :: win) ≤ Bitrate p).
    { apply foldl_min_lower. rewrite fmap_cons. apply elem_of_cons. by left. }
    rewrite H in Hle. assert (Bitrate p = MaxUint64) as <- by lia.
    rewrite fmap_cons. apply elem_of_cons. by left.
  - intros p Hp. apply foldl_min_lower. by apply list_elem_of_fmap_2.
Qed.

Lemma clamp_target_spec (x lo hi : Z) :
  lo ≤ hi → clamp_target x lo hi = spec_clamp x lo hi.
Proof.
  intros H. unfold clamp_target, spec_clamp.
  destruct (Z.ltb_spec x lo); [lia|].
  destruct (Z.gtb_spec x hi); lia.
Qed.

Lemma spec_clamp_bounds (x lo hi : Z) :
  lo ≤ hi → lo ≤ spec_clamp x lo hi ≤ hi.
Proof. unfold spec_clamp. lia. Qed.

Lemma uint64_succ (n : nat) :
  uint64 (uint64 (Z.of_nat n) + 1) = uint64 (Z.of_nat (n + 1)).
Proof. unfold uint64. rewrite Zplus_mod_idemp_l. f_equal. lia. Qed.

Lemma uint64_add (x y : Z) : uint64 (uint64 x + y) = uint64 (x + y).
Proof. unfold uint64. by rewrite Zplus_mod_idemp_l. Qed.

Lemma uint64_small_nonzero (z : Z) : 0 < z < 2 ^ 64 → uint64 z ≠ 0.
Proof. intros H. unfold uint64. rewrite Z.mod_small; lia. Qed.

(** One iteration, from the locals of an open window. *)
Lemma rembLoop_body_window (lo hi last : Z) win (a : Arrival) (w : World) :
  lo ≤ hi → Z.of_nat (length win) + 1 < 2 ^ 64 →
  rembLoop_body a (stats_of lo hi last win) w =
  if remb_due a last
  then (Returned (stats_of lo hi (arr_now a) []),
        match pub (router w) with
        | Some p =>
          emit (TWriteRTCP p (REMB
            {| REMB_SenderSSRC := 1;
               Bitrate := spec_clamp (window_min (win ++ [arr_pkt a])) lo hi;
               SSRCs := SSRCs (arr_pkt a) |})) w
        | None => w
        end)
  else (Returned (stats_of lo hi last (win ++ [arr_pkt a])), w).
Proof.
  intros Hlh Hlen. unfold rembLoop_body, remb_due. cbn [stats_of lastRembTime
    rembMin rembMax lowest rembCount rembTotalRate].
  assert (Hlow : (if Bitrate (arr_pkt a) <? window_min win
                  then Bitrate (arr_pkt a) else window_min win)
                 = window_min (win ++ [arr_pkt a])).
  { rewrite window_min_snoc. destruct (Z.ltb_spec (Bitrate (arr_pkt a)) (window_min win)); lia. }
  rewrite Hlow, uint64_succ, uint64_add, <- window_sum_snoc.
  destruct (arr_since a - last >? maxRembTime).
  - destruct (Z.eqb_spec (uint64 (Z.of_nat (length win + 1))) 0) as [E|_].
    { apply uint64_small_nonzero in E; [done|lia]. }
    rewrite clamp_target_spec by done. run_go.
    destruct (pub (router w)) eqn:Ep; run_go; rewrite ?Ep; done.
  - run_go. unfold stats_of. by rewrite length_app.
Qed.

Lemma rembLoop_from_window (lo hi : Z) (arrivals : list Arrival) :
  lo ≤ hi →
  ∀ last win w,
  Z.of_nat (length win + length arrivals) < 2 ^ 64 →
  ∃ w', rembLoop_from arrivals (stats_of lo hi last win) w
        = (Returned (stats_of lo hi (spec_window last win arrivals).1
                                    (spec_window last win arrivals).2), w')
    ∧ router w' = router w ∧ chans w' = chans w
    ∧ trace w' = trace w ++
        match pub (router w) with
        | Some p => (λ e, TWriteRTCP p (REMB e))
                    <$> spec_emissions lo hi last win arrivals
        | None => []
        end.
Proof.
  intros Hlh. induction arrivals as [|a rest IH]; intros last win w Hlen.
  - exists w. cbn. split_and!; try done.
    destruct (pub (router w)); by rewrite app_nil_r.
  - cbn [rembLoop_from spec_window spec_emissions length] in *.
    rewrite run_bind, rembLoop_body_window by (done || lia).
    destruct (remb_due a last) eqn:Ed.
    + set (w1 := match pub (router w) with Some p => _ | None => w end).
      destruct (IH (arr_now a) [] w1) as (w' & Hrun & Hr & Hc & Ht).
      { cbn [length]. lia. }
      assert (Hr1 : router w1 = router w) by (subst w1; by destruct (pub (router w))).
      assert (Hc1 : chans w1 = chans w) by (subst w1; by destruct (pub (router w))).
      exists w'. rewrite Hrun, Hr, Hc, Ht, Hr1, Hc1. split_and!; try done.
      subst w1. destruct (pub (router w)); cbn; [|done].
      by rewrite <- app_assoc.
    + destruct (IH last (win ++ [arr_pkt a]) w) as (w' & Hrun & Hr & Hc & Ht).
      { rewrite length_app. cbn [length]. lia. }
      exists w'. by rewrite Hrun.
Qed.

Lemma spec_emissions_bounds (lo hi : Z) (arrivals : list Arrival) :
  lo ≤ hi → ∀ last win,
  Forall (λ e, lo ≤ Bitrate e ≤ hi ∧ REMB_SenderSSRC e = 1)
         (spec_emissions lo hi last win arrivals).
Proof.
  intros Hlh. induction arrivals as [|a rest IH]; intros last win; cbn.
  - constructor.
  - destruct (remb_due a last); [|apply IH].
    constructor; [|apply IH]. cbn. split; [by apply spec_clamp_bounds|done].
Qed.

Lemma rembLoop_body_reset (a : Arrival) (s s' : RembState) (w w' : World) :
  rembLoop_body a s w = (Returned s', w') →
  remb_due a (lastRembTime s) = true →
  rembCount s' = 0 ∧ rembTotalRate s' = 0 ∧ lowest s' = MaxUint64.
Proof.
  unfold rembLoop_body, remb_due. intros H Hd. rewrite Hd in H.
  destruct (_ =? 0); [discriminate|]. run_go.
  destruct (pub (router w)) eqn:Ep; run_go; rewrite ?Ep in H;
    by injection H as <- _.
Qed.

(** C2 as stated fails: with a configured minimum above the configured
    maximum, the emitted bit rate is outside [rembMin, rembMax]. *)
Lemma rembLoop_emits_outside_bounds :
  let cfg := mkRouterConfig 500000 100000 true in
  let w := run [OpAddPub (Some 9%nat)] (NewWorld "r" cfg) in
  let a := mkArrival (mkREMB 5 50 [11]) 300000000 300000001 in
  ∃ e, trace (rembLoop 0 [a] w).2 = trace w ++ [TWriteRTCP 9%nat (REMB e)]
    ∧ ¬ (rembMin (rembLoop_init cfg 0) ≤ Bitrate e
         ≤ rembMax (rembLoop_init cfg 0)).
Proof.
  eexists. split; [vm_compute; reflexivity|]. vm_compute. intros [H1 H2].
  by apply H2.
Qed.

(** C2, amended: when [rembMin <= rembMax], the REMB loop writes to the
    publisher exactly the packets the specification describes: one for
    each arrival that finds the emission due, with [Bitrate] the minimum
    bit rate of the arrivals since the last emission clamped to
    [rembMin, rembMax], [SenderSSRC] 1, and the [SSRCs] of the arrival
    just received; each emitted [Bitrate] lies in [rembMin, rembMax].  The
    locals at the end are those of the window still open, and an iteration
    that finds the emission due leaves count 0, sum 0 and lowest
    [MaxUint64]. *)
Theorem rembLoop_emissions (now : Z) (arrivals : list Arrival) (w : World) :
  let lo := rembMin (rembLoop_init (routerConfig w) now) in
  let hi := rembMax (rembLoop_init (routerConfig w) now) in
  lo ≤ hi →
  Z.of_nat (length arrivals) < 2 ^ 64 →
  ∃ s w',
    rembLoop now arrivals w = (Returned s, w')
    ∧ trace w' = trace w ++
        match pub (router w) with
        | Some p => (λ e, TWriteRTCP p (REMB e))
                    <$> spec_emissions lo hi now [] arrivals
        | None => []
        end
    ∧ Forall (λ e, lo ≤ Bitrate e ≤ hi ∧ REMB_SenderSSRC e = 1)
             (spec_emissions lo hi now [] arrivals)
    ∧ s = stats_of lo hi (spec_window now [] arrivals).1
                         (spec_window now [] arrivals).2
    ∧ (∀ a s1 w1 s2 w2,
         rembLoop_body a s1 w1 = (Returned s2, w2) →
         remb_due a (lastRembTime s1) = true →
         rembCount s2 = 0 ∧ rembTotalRate s2 = 0 ∧ lowest s2 = MaxUint64).
Proof.
  intros lo hi Hlh Hlen. unfold rembLoop. rewrite run_bind, run_get.
  destruct (rembLoop_from_window lo hi arrivals Hlh now [] w)
    as (w' & Hrun & _ & _ & Ht); [cbn [length]; lia|].
  eexists _, w'. split_and!.
  - exact Hrun.
  - exact Ht.
  - by apply spec_emissions_bounds.
  - reflexivity.
  - intros a s1 w1 s2 w2. apply rembLoop_body_reset.
Qed.

End remb.

(** ** Well-formed subscriber bookkeeping *)

Lemma fresh_chan_unused (k : Core) : c_closed k !! fresh (dom (c_closed k)) = None.
Proof. apply not_elem_of_dom, is_fresh. Qed.

Lemma core_move_wf (k k' : Core) : core_move k k' → wf k → wf k'.
Proof.
  intros Hm [Hop Hinj].
  destruct Hm as [k k' Hs|k|f k]; [|done|done].
  destruct Hs as [i t k0 _|i k0 Hopen].
  - pose proof (fresh_chan_unused k0) as Hfresh.
    set (c := fresh (dom (c_closed k0))) in *.
    assert (Hne : ∀ j c', c_subChans k0 !! j = Some c' → c' ≠ c).
    { intros j c' Hj ->. apply Hop in Hj. congruence. }
    split; cbn; fold c.
    + intros j c'. destruct (decide (i = j)) as [->|Hij].
      * rewrite lookup_insert_eq. intros [= <-]. by rewrite lookup_insert_eq.
      * rewrite lookup_insert_ne by done. intros Hj.
        rewrite lookup_insert_ne by (intros ->; by eapply Hne). by eapply Hop.
    + intros j1 j2 c'.
      destruct (decide (i = j1)) as [E1|H1], (decide (i = j2)) as [E2|H2];
        subst; rewrite ?lookup_insert_eq, ?lookup_insert_ne by done; try done.
      * intros [= <-] H. by apply Hne in H.
      * intros H [= <-]. by apply Hne in H.
      * apply Hinj.
  - split; cbn.
    + intros j c'. destruct (decide (i = j)) as [->|Hij].
      { by rewrite lookup_delete_eq. }
      rewrite lookup_delete_ne by done. intros Hj.
      destruct (c_subChans k0 !! i) as [c|] eqn:Ei; [|by eapply Hop].
      rewrite lookup_insert_ne; [by eapply Hop|].
      intros ->. by apply Hij, (Hinj i j c').
    + intros j1 j2 c'.
      destruct (decide (i = j1)) as [->|H1]; [by rewrite lookup_delete_eq|].
      destruct (decide (i = j2)) as [->|H2]; [by rewrite lookup_delete_eq|].
      rewrite !lookup_delete_ne by done. apply Hinj.
Qed.

Lemma wf_run (i : string) (cfg : RouterConfig) (ops : list Op) :
  wf (core (run ops (NewWorld i cfg))).
Proof.
  apply (run_core_inv wf ops (NewWorld i cfg) core_move_wf).
  split; cbn; intros *; by rewrite lookup_empty.
Qed.

(** In a well-formed world the heap cell of a registered queue is open. *)
Lemma wf_chans_open (w : World) (i : string) (c : nat) :
  wf (core w) → subChans (router w) !! i = Some c →
  ∃ ch, chans w !! c = Some ch ∧ closed ch = false.
Proof.
  intros [Hop _] Hi. apply Hop in Hi. cbn in Hi. rewrite lookup_fmap in Hi.
  destruct (chans w !! c) as [ch|]; [|done]. exists ch. split; [done|].
  by injection Hi.
Qed.

(** ** The order of a map traversal *)

Lemma NoDup_range_keys {A} (ord : list string) (m : gmap string A) :
  NoDup (range_keys ord m).
Proof.
  unfold range_keys. apply NoDup_app. split_and!.
  - apply NoDup_filter, NoDup_remove_dups.
  - intros x H1 H2.
    apply list_elem_of_filter in H1 as [_ H1].
    rewrite elem_of_remove_dups in H1.
    apply list_elem_of_filter in H2 as [H2 _]. exact (H2 H1).
  - apply NoDup_filter, NoDup_elements.
Qed.

Lemma elem_of_range_keys {A} (ord : list string) (m : gmap string A) (x : string) :
  x ∈ range_keys ord m ↔ is_Some (m !! x).
Proof.
  unfold range_keys. rewrite elem_of_app, !list_elem_of_filter,
    elem_of_remove_dups, elem_of_elements, elem_of_dom.
  destruct (decide (x ∈ ord)); tauto.
Qed.

(** ** C8: the fan-out *)

Lemma try_send_open (w : World) (c : nat) (ch : Chan) (p : Packet) :
  chans w !! c = Some ch → closed ch = false →
  ∃ b w', try_send (Some c) p w = (Returned b, w')
    ∧ router w' = router w ∧ trace w' = trace w
    ∧ chans w' = <[c := deliver p ch]> (chans w).
Proof.
  intros Hc Hcl. unfold try_send, deliver. cbn. rewrite Hc. cbn. rewrite Hcl.
  case_decide.
  - by eexists _, _.
  - eexists _, _. split_and!; try done. by rewrite insert_id.
Qed.

Lemma fanout_keys (p : Packet) (keys : list string) :
  NoDup keys → ∀ w,
  (∀ i, i ∈ keys → ∃ c ch, subChans (router w) !! i = Some c
                            ∧ chans w !! c = Some ch ∧ closed ch = false) →
  (∀ i j c, subChans (router w) !! i = Some c →
            subChans (router w) !! j = Some c → i = j) →
  ∃ w',
    for_each keys
      (λ i, w ← get; try_send (subChans (router w) !! i) p;; mret tt) w
    = (Returned tt, w')
    ∧ router w' = router w ∧ trace w' = trace w
    ∧ (∀ i c ch, i ∈ keys → subChans (router w) !! i = Some c →
                 chans w !! c = Some ch → chans w' !! c = Some (deliver p ch))
    ∧ (∀ c, (∀ i, i ∈ keys → subChans (router w) !! i ≠ Some c) →
            chans w' !! c = chans w !! c).
Proof.
  induction 1 as [|i keys Hi Hnd IH]; intros w Hopen Hinj.
  - exists w. split_and!; try done. intros i c ch Hin. by apply elem_of_nil in Hin.
  - destruct (Hopen i) as (c & ch & Hic & Hch & Hcl); [by left|].
    destruct (try_send_open w c ch p Hch Hcl) as (b & w1 & Hs & Hr1 & Ht1 & Hc1).
    assert (Hother : ∀ j cj, j ∈ keys → subChans (router w) !! j = Some cj → cj ≠ c).
    { intros j cj Hj Hjc ->. assert (i = j) by (by eapply Hinj). by subst. }
    destruct (IH w1) as (w' & Hrun & Hr & Ht & Hdel & Hsame).
    { intros j Hj. destruct (Hopen j) as (cj & chj & Hjc & Hjch & Hjcl); [by right|].
      exists cj, chj. rewrite Hr1, Hc1. split_and!; try done.
      rewrite lookup_insert_ne; [done|]. intros ->. by eapply Hother. }
    { by rewrite Hr1. }
    exists w'. cbn [for_each]. rewrite run_bind, run_bind, run_get, Hic.
    rewrite run_bind, Hs, run_mret, Hrun. split_and!.
    + done.
    + by rewrite Hr.
    + by rewrite Ht.
    + intros j cj chj [->|Hj]%elem_of_cons Hjc Hjch.
      * assert (cj = c) as -> by congruence. assert (chj = ch) as -> by congruence.
        rewrite Hsame, Hc1; [by rewrite lookup_insert_eq|].
        intros j Hj. rewrite Hr1. intros Hjc'. by eapply Hother.
      * apply (Hdel j); [done | by rewrite Hr1 |].
        rewrite Hc1, lookup_insert_ne; [done|]. intros ->. by eapply Hother.
    + intros c' Hc'. rewrite Hsame.
      * rewrite Hc1, lookup_insert_ne; [done|]. intros ->.
        by apply (Hc' i); [left|].
      * intros j Hj. rewrite Hr1. apply Hc'. by right.
Qed.

(** C8: one iteration of the fan-out loop on a running router with a
    source to read from, whatever has happened to the router before.  The
    iteration returns (the producer is not blocked) and leaves the router
    as it was.  A nil packet is skipped: no channel changes.  Otherwise,
    for every attached subscriber, its queue is open and receives the
    packet at its end if it has room, and is left as it was if it is full;
    what one queue receives depends on that queue alone, and no other
    channel changes. *)
Theorem fanout_delivery (i0 : string) (cfg : RouterConfig) (ops : list Op)
    (rd : ReadResult) (ord : list string) :
  let w := run ops (NewWorld i0 cfg) in
  stop (router w) = false →
  (On (pluginChain (router w)) = false → is_Some (pub (router w))) →
  ∃ w', start_body rd ord w = (Returned Continue, w')
    ∧ router w' = router w
    ∧ match source_packet w rd with
      | None => chans w' = chans w
      | Some p =>
        (∀ i, is_Some (subs (router w) !! i) →
              ∃ c ch, subChans (router w) !! i = Some c
                      ∧ chans w !! c = Some ch ∧ closed ch = false
                      ∧ chans w' !! c = Some (deliver p ch))
        ∧ (∀ c, (∀ i, subChans (router w) !! i ≠ Some c) →
                chans w' !! c = chans w !! c)
      end.
Proof.
  intros w Hstop Hsrc.
  pose proof (wf_run i0 cfg ops) as Hwf. fold w in Hwf.
  pose proof (same_keys_run i0 cfg ops) as Hkeys. fold w in Hkeys.
  unfold same_keys in Hkeys. cbn in Hkeys.
  assert (Hread : ∃ w1,
    (if On (pluginChain (router w))
     then call ChainReadRTP;; mret (rd_pkt rd)
     else p ← deref (pub (router w));
          call (TReadRTP p);;
          mret (if rd_err rd then None else rd_pkt rd)) w
    = (Returned (source_packet w rd), w1)
    ∧ router w1 = router w ∧ chans w1 = chans w).
  { unfold source_packet. destruct (On _).
    - by eexists.
    - destruct Hsrc as [p Hp]; [done|]. rewrite Hp. by eexists. }
  destruct Hread as (w1 & Hread & Hr1 & Hc1).
  unfold start_body. rewrite run_bind, run_get, Hstop, run_bind, Hread.
  destruct (source_packet w rd) as [p|].
  - unfold fanout, GetSubs. rewrite !run_bind, run_get, run_mret.
    destruct (fanout_keys p (range_keys ord (subs (router w1)))
                (NoDup_range_keys _ _) w1) as (w' & Hrun & Hr & _ & Hdel & Hsame).
    { intros i Hi. apply elem_of_range_keys in Hi. rewrite Hr1 in *.
      apply elem_of_dom in Hi. rewrite Hkeys in Hi.
      apply elem_of_dom in Hi as [c Hc].
      destruct (wf_chans_open w i c Hwf Hc) as (ch & Hch & Hcl).
      exists c, ch. by rewrite Hc1. }
    { rewrite Hr1. apply Hwf. }
    rewrite Hrun, run_mret. exists w'. split_and!; [done|by rewrite Hr| |].
    + intros i Hi. apply elem_of_dom in Hi as Hd. rewrite Hkeys in Hd.
      apply elem_of_dom in Hd as [c Hc].
      destruct (wf_chans_open w i c Hwf Hc) as (ch & Hch & Hcl).
      exists c, ch. split_and!; try done.
      apply (Hdel i); [|by rewrite Hr1|by rewrite Hc1].
      apply elem_of_range_keys. by rewrite Hr1.
    + intros c Hc. rewrite Hsame, Hc1; [done|].
      intros i _. rewrite Hr1. apply Hc.
  - rewrite run_mret. by exists w1.
Qed.

(** ** C10: a second [AddSub] under the same id *)

Lemma core_move_orphan (c : nat) (k k' : Core) :
  core_move k k' → orphan c k → orphan c k'.
Proof.
  intros Hm [Hop Hno].
  destruct Hm as [k k' Hs|k|f k]; [|done|done].
  destruct Hs as [i t k0 _|i k0 _].
  - pose proof (fresh_chan_unused k0) as Hfresh.
    assert (Hne : fresh (dom (c_closed k0)) ≠ c) by congruence.
    split; cbn.
    + by rewrite lookup_insert_ne.
    + intros j. destruct (decide (i = j)) as [->|Hij].
      * rewrite lookup_insert_eq. congruence.
      * rewrite lookup_insert_ne by done. apply Hno.
  - split; cbn.
    + destruct (c_subChans k0 !! i) as [ci|] eqn:Ei; [|done].
      rewrite lookup_insert_ne; [done|]. intros ->. by apply (Hno i).
    + intros j. destruct (decide (i = j)) as [->|Hij].
      * by rewrite lookup_delete_eq.
      * rewrite lookup_delete_ne by done. apply Hno.
Qed.

Lemma orphan_run (c : nat) (ops : list Op) (w : World) :
  orphan c (core w) → orphan c (core (run ops w)).
Proof. apply run_core_inv, core_move_orphan. Qed.

Lemma AddSub_running (i : string) (t : Transport) (w : World) :
  stop (router w) = false →
  AddSub i (Some t) w =
  (Returned (Some t),
   emit (Go (SubFeedbackLoop i t))
     (emit (Go (SubWriteLoop i t))
        (emit (TOnClose t (CallDelSub i))
           (with_router
              (λ r, set_subChans (<[i := fresh (dom (chans w))]> (subChans r)) r)
              (with_chans (<[fresh (dom (chans w)) := mkChan [] 1000 false]>)
                 (with_router (λ r, set_subs (<[i := Some t]> (subs r)) r) w)))))).
Proof. intros Hs. unfold AddSub. run_go. by rewrite Hs. Qed.

(** C10: on a running router, whatever has happened to it before, a second
    [AddSub] under an id that is registered returns the new transport and
    replaces both entries: the subscriber map holds the new transport and
    the queue map a new queue.  The calls it makes are the registration of
    the callback on the new transport and the start of the two loops: the
    previous transport is not closed.  The previous queue is left as it
    was, open, and it stays open through every later run of operations;
    [delSub] of the id closes the new queue and not the previous one. *)
Theorem AddSub_overwrite (i0 : string) (cfg : RouterConfig) (ops0 : list Op)
    (i : string) (t_old t' : Transport) (c_old : nat) (ops : list Op) :
  let w := run ops0 (NewWorld i0 cfg) in
  stop (router w) = false →
  subs (router w) !! i = Some (Some t_old) →
  subChans (router w) !! i = Some c_old →
  ∃ w' c_new,
    AddSub i (Some t') w = (Returned (Some t'), w')
    ∧ subs (router w') !! i = Some (Some t')
    ∧ subChans (router w') !! i = Some c_new
    ∧ c_new ≠ c_old
    ∧ trace w' = trace w ++ [TOnClose t' (CallDelSub i);
                             Go (SubWriteLoop i t');
                             Go (SubFeedbackLoop i t')]
    ∧ chans w' !! c_old = chans w !! c_old
    ∧ closed <$> chans w' !! c_old = Some false
    ∧ closed <$> chans (run ops w') !! c_old = Some false
    ∧ closed <$> chans (delSub i w').2 !! c_new = Some true
    ∧ closed <$> chans (delSub i w').2 !! c_old = Some false.
Proof.
  intros w Hstop Hsub Hchan.
  pose proof (wf_run i0 cfg ops0) as Hwf. fold w in Hwf.
  destruct (wf_chans_open w i c_old Hwf Hchan) as (ch & Hch & Hcl).
  set (c_new := fresh (dom (chans w))).
  assert (Hfresh : chans w !! c_new = None) by apply not_elem_of_dom, is_fresh.
  assert (Hne : c_new ≠ c_old) by congruence.
  rewrite (AddSub_running i t' w Hstop). fold c_new.
  eexists _, c_new. split; [reflexivity|]. cbn.
  set (w' := emit _ _).
  assert (Hold : chans w' !! c_old = Some ch).
  { subst w'. cbn. by rewrite lookup_insert_ne. }
  assert (Horphan : orphan c_old (core w')).
  { split; cbn.
    - by rewrite lookup_fmap, lookup_insert_ne, Hch, <- Hcl.
    - intros j. destruct (decide (i = j)) as [->|Hij].
      + rewrite lookup_insert_eq. congruence.
      + rewrite lookup_insert_ne by done. intros Hj. destruct Hwf as [_ Hinj].
        by apply Hij, (Hinj i j c_old). }
  split_and!.
  - by rewrite lookup_insert_eq.
  - by rewrite lookup_insert_eq.
  - done.
  - by rewrite <- !app_assoc.
  - by rewrite lookup_insert_ne.
  - by rewrite lookup_insert_ne, Hch, <- Hcl.
  - destruct (orphan_run c_old ops w' Horphan) as [H _]. cbn in H.
    by rewrite lookup_fmap in H.
  - erewrite (delSub_present i w' t' c_new (mkChan [] 1000 false)).
    + cbn. by rewrite lookup_insert_eq.
    + subst w'. unfold lookup_iface. cbn. by rewrite lookup_insert_eq.
    + subst w'. cbn. by rewrite lookup_insert_eq.
    + subst w'. cbn. by rewrite lookup_insert_eq.
    + done.
  - destruct (orphan_run c_old [OpDelSub i] w' Horphan) as [H _]. cbn in H.
    by rewrite lookup_fmap in H.
Qed.

(** ** C4: the write-error threshold *)





(** * The properties on the example worlds *)

Lemma AddSub_stopped_witness :
  stop (router example_closed) = true
  ∧ AddSub "c" (Some 4) example_closed = (Returned None, example_closed).
Proof.
  assert (H : stop (router example_closed) = true) by (vm_compute; reflexivity).
  split; [exact H | exact (AddSub_stopped "c" (Some 4) example_closed H)].
Defined.


Lemma Close_without_handler_witness :
  let ops := [OpAddPub (Some 9); OpAddSub "a" (Some 2)] in
  forallb keeps_lifecycle ops = true
  ∧ Close [] (run ops (NewWorld "r" example_config))
    = (Panicked NilFuncCall, run ops (NewWorld "r" example_config)).
Proof.
  intros ops. split; [reflexivity|].
  exact (Close_without_handler "r" example_config ops [] eq_refl).
Defined.


Lemma rembLoop_emissions_witness :
  let w := example_running in
  let arrivals :=
    [mkArrival (mkREMB 5 600000 [11%Z]) 100000000 100000001;
     mkArrival (mkREMB 6 400000 [11%Z; 12%Z]) 150000000 150000001;
     mkArrival (mkREMB 7 800000 [13%Z]) 250000000 250000001] in
  let lo := rembMin (rembLoop_init (routerConfig w) 0) in
  let hi := rembMax (rembLoop_init (routerConfig w) 0) in
  ((lo ≤ hi)%Z ∧ (Z.of_nat (length arrivals) < 2 ^ 64)%Z)
  ∧ spec_emissions lo hi 0 [] arrivals = [mkREMB 1 400000 [13%Z]]
  ∧ ∃ s w',
    rembLoop 0 arrivals w = (Returned s, w')
    ∧ trace w' = trace w ++
        match pub (router w) with
        | Some p => (λ e, TWriteRTCP p (REMB e))
                    <$> spec_emissions lo hi 0 [] arrivals
        | None => []
        end
    ∧ Forall (λ e, (lo ≤ Bitrate e ≤ hi)%Z ∧ REMB_SenderSSRC e = 1%Z)
             (spec_emissions lo hi 0 [] arrivals)
    ∧ s = stats_of lo hi (spec_window 0 [] arrivals).1
                         (spec_window 0 [] arrivals).2
    ∧ (∀ a s1 w1 s2 w2,
         rembLoop_body a s1 w1 = (Returned s2, w2) →
         remb_due a (lastRembTime s1) = true →
         rembCount s2 = 0%Z ∧ rembTotalRate s2 = 0%Z ∧ lowest s2 = MaxUint64).
Proof.
  intros w arrivals lo hi.
  assert (H1 : (lo ≤ hi)%Z) by (vm_compute; discriminate).
  assert (H2 : (Z.of_nat (length arrivals) < 2 ^ 64)%Z) by (vm_compute; reflexivity).
  split; [by split|]. split; [vm_compute; reflexivity|].
  exact (rembLoop_emissions 0 arrivals w H1 H2).
Defined.

Lemma fanout_delivery_witness :
  let ops := [OpAddPub (Some 9); OpAddSub "a" (Some 2); OpAddSub "b" (Some 3)] in
  let w := run ops (NewWorld "r" example_config) in
  let rd := mkReadResult (Some (mkPacket 1 2 3)) false in
  (stop (router w) = false
   ∧ (On (pluginChain (router w)) = false → is_Some (pub (router w))))
  ∧ ∃ w', start_body rd ["b"] w = (Returned Continue, w')
    ∧ router w' = router w
    ∧ match source_packet w rd with
      | None => chans w' = chans w
      | Some p =>
        (∀ i, is_Some (subs (router w) !! i) →
              ∃ c ch, subChans (router w) !! i = Some c
                      ∧ chans w !! c = Some ch ∧ closed ch = false
                      ∧ chans w' !! c = Some (deliver p ch))
        ∧ (∀ c, (∀ i, subChans (router w) !! i ≠ Some c) →
                chans w' !! c = chans w !! c)
      end.
Proof.
  intros ops w rd.
  assert (H1 : stop (router w) = false) by (vm_compute; reflexivity).
  assert (H2 : On (pluginChain (router w)) = false → is_Some (pub (router w))).
  { intros _. exists 9. vm_compute. reflexivity. }
  split; [by split|].
  exact (fanout_delivery "r" example_config ops rd ["b"] H1 H2).
Defined.

Lemma AddSub_overwrite_witness :
  let ops0 := [OpAddPub (Some 9); OpAddSub "a" (Some 2)] in
  let ops := [OpFanOut (mkReadResult (Some (mkPacket 1 2 3)) false) [];
              OpDelSub "a"; OpOnClose (Some 1); OpClose []] in
  let w := run ops0 (NewWorld "r" example_config) in
  (stop (router w) = false
   ∧ subs (router w) !! "a" = Some (Some 2)
   ∧ subChans (router w) !! "a" = Some 0)
  ∧ ∃ w' c_new,
    AddSub "a" (Some 4) w = (Returned (Some 4), w')
    ∧ subs (router w') !! "a" = Some (Some 4)
    ∧ subChans (router w') !! "a" = Some c_new
    ∧ c_new ≠ 0
    ∧ trace w' = trace w ++ [TOnClose 4 (CallDelSub "a");
                             Go (SubWriteLoop "a" 4);
                             Go (SubFeedbackLoop "a" 4)]
    ∧ chans w' !! 0 = chans w !! 0
    ∧ closed <$> chans w' !! 0 = Some false
    ∧ closed <$> chans (run ops w') !! 0 = Some false
    ∧ closed <$> chans (delSub "a" w').2 !! c_new = Some true
    ∧ closed <$> chans (delSub "a" w').2 !! 0 = Some false.
Proof.
  intros ops0 ops w.
  assert (H1 : stop (router w) = false) by (vm_compute; reflexivity).
  assert (H2 : subs (router w) !! "a" = Some (Some 2)) by (vm_compute; reflexivity).
  assert (H3 : subChans (router w) !! "a" = Some 0) by (vm_compute; reflexivity).
  split; [by split_and!|].
  exact (AddSub_overwrite "r" example_config ops0 "a" 2 4 0 ops H1 H2 H3).
Defined.

(** * Further properties of the router *)

(** ** [delSub] *)

(** X1: [delSub] of an id that is in neither map, because it was never
    added or because a [delSub] that returned has removed it, returns and
    changes nothing: no transport is closed, no channel is closed. *)
Theorem delSub_unknown_or_repeated (i : string) (w : World) :
  (subs (router w) !! i = None ∧ subChans (router w) !! i = None)
  ∨ (∃ w0, delSub i w0 = (Returned tt, w)) →
  delSub i w = (Returned tt, w).
Proof.
  intros [[Hs Hc]|[w0 H0]]; [by apply delSub_absent|].
  apply delSub_absent.
  - revert H0. unfold delSub. run_go.
    destruct (lookup_iface _ _); run_go;
      (destruct (subChans (router w0) !! i) as [c|]; run_go;
       [unfold close_chan; cbn [chans emit];
        destruct (chans w0 !! c) as [ch|]; [|discriminate];
        destruct (closed ch); [discriminate|]|]);
      intros [= <-]; cbn; apply lookup_delete_eq.
  - revert H0. unfold delSub. run_go.
    destruct (lookup_iface _ _); run_go;
      (destruct (subChans (router w0) !! i) as [c|]; run_go;
       [unfold close_chan; cbn [chans emit];
        destruct (chans w0 !! c) as [ch|]; [|discriminate];
        destruct (closed ch); [discriminate|]|]);
      intros [= <-]; cbn; apply lookup_delete_eq.
Qed.

(** X2: on a router reached by any run from [NewRouter], [delSub] returns
    for every id.  Afterwards the id is in neither map; the transport that
    was registered under it, if it was not nil, has been closed, by the one
    call the operation makes; its queue is closed with what it buffered
    left in place; the entries and the queues of all other subscribers,
    and the other fields of the router, are as they were. *)
Theorem delSub_removes_one (i0 : string) (cfg : RouterConfig) (ops : list Op)
    (i : string) :
  let w := run ops (NewWorld i0 cfg) in
  ∃ w', delSub i w = (Returned tt, w')
    ∧ subs (router w') !! i = None
    ∧ subChans (router w') !! i = None
    ∧ (∀ j, j ≠ i → subs (router w') !! j = subs (router w) !! j
                    ∧ subChans (router w') !! j = subChans (router w) !! j)
    ∧ (∀ c ch, subChans (router w) !! i = Some c → chans w !! c = Some ch →
               chans w' !! c = Some (close_cell ch))
    ∧ (∀ j c, j ≠ i → subChans (router w) !! j = Some c →
              chans w' !! c = chans w !! c)
    ∧ router_rest (router w') = router_rest (router w)
    ∧ trace w' = trace w ++ match lookup_iface (subs (router w)) i with
                            | Some t => [TClose t]
                            | None => []
                            end.
Proof.
  intros w. pose proof (wf_run i0 cfg ops) as Hwf. fold w in Hwf.
  destruct (delSub_open i w) as (w' & Hrun & Hs & Hc & Hrest & Hch & Ht).
  { intros c Hc. by apply (wf_chans_open w i). }
  exists w'. rewrite Hs, Hc, Hch. split_and!; try done.
  - apply lookup_delete_eq.
  - apply lookup_delete_eq.
  - intros j Hj. by rewrite !lookup_delete_ne.
  - intros c ch Hic Hcc. rewrite Hic, lookup_alter, decide_True by done.
    by rewrite Hcc.
  - intros j c Hj Hjc. destruct (subChans (router w) !! i) as [ci|] eqn:Ei; [|done].
    rewrite lookup_alter_ne; [done|]. intros ->.
    destruct Hwf as [_ Hinj]. by apply Hj, (Hinj j i c).
Qed.

(** ** [AddSub] *)

(** X3: on a running router, [AddSub] of a transport returns it, and
    [GetSub] then finds it under the id; what [GetSub] returns for every
    other id is as before.  The queue registered for the id is a channel
    that was not allocated before; it is empty, open and of capacity 1000,
    and all other channels are as they were. *)
Theorem AddSub_then_GetSub (i : string) (t : Transport) (w : World) :
  stop (router w) = false →
  ∃ w' c, AddSub i (Some t) w = (Returned (Some t), w')
    ∧ GetSub i w' = (Returned (Some t), w')
    ∧ (∀ j, j ≠ i → (GetSub j w').1 = (GetSub j w).1)
    ∧ subChans (router w') !! i = Some c
    ∧ chans w !! c = None
    ∧ chans w' !! c = Some (mkChan [] 1000 false)
    ∧ (∀ c', c' ≠ c → chans w' !! c' = chans w !! c').
Proof.
  intros Hs. rewrite (AddSub_running i t w Hs).
  eexists _, (fresh (dom (chans w))). split; [reflexivity|].
  unfold GetSub, lookup_iface. run_go. cbn. split_and!.
  - by rewrite lookup_insert_eq.
  - intros j Hj. by rewrite lookup_insert_ne.
  - by rewrite lookup_insert_eq.
  - apply not_elem_of_dom, is_fresh.
  - by rewrite lookup_insert_eq.
  - intros c' Hc'. by rewrite lookup_insert_ne.
Qed.

(** X4: [AddSub] of a nil transport on a running router panics at the
    registration of the callback, after both maps have been written: the
    id is left registered with a nil transport and a new queue, neither
    loop has been started and no call has been made.  [GetSub] of the id
    returns nil. *)
Theorem AddSub_nil_transport (i : string) (w : World) :
  stop (router w) = false →
  ∃ w' c, AddSub i None w = (Panicked NilDereference, w')
    ∧ subs (router w') !! i = Some None
    ∧ subChans (router w') !! i = Some c
    ∧ chans w !! c = None
    ∧ chans w' !! c = Some (mkChan [] 1000 false)
    ∧ trace w' = trace w
    ∧ GetSub i w' = (Returned None, w').
Proof.
  intros Hs. unfold AddSub. run_go. rewrite Hs. unfold make_chan. cbn.
  eexists _, (fresh (dom (chans w))). split; [reflexivity|].
  unfold lookup_iface. cbn. split_and!; try done.
  - by rewrite lookup_insert_eq.
  - by rewrite lookup_insert_eq.
  - apply not_elem_of_dom, is_fresh.
  - by rewrite lookup_insert_eq.
  - by rewrite lookup_insert_eq.
Qed.

(** X5: on a running router, [AddSub] under an id that is in neither map
    followed by [delSub] of the id gives both maps back as they were.  The
    calls made are the registration of the callback, the start of the two
    loops and the close of the transport; the queue that was allocated is
    left closed and empty. *)
Theorem AddSub_then_delSub (i : string) (t : Transport) (w : World) :
  stop (router w) = false →
  subs (router w) !! i = None → subChans (router w) !! i = None →
  ∃ w1 w2 c,
    AddSub i (Some t) w = (Returned (Some t), w1)
    ∧ delSub i w1 = (Returned tt, w2)
    ∧ subs (router w2) = subs (router w)
    ∧ subChans (router w2) = subChans (router w)
    ∧ router_rest (router w2) = router_rest (router w)
    ∧ chans w !! c = None
    ∧ chans w2 !! c = Some (mkChan [] 1000 true)
    ∧ (∀ c', c' ≠ c → chans w2 !! c' = chans w !! c')
    ∧ trace w2 = trace w ++ [TOnClose t (CallDelSub i);
                             Go (SubWriteLoop i t);
                             Go (SubFeedbackLoop i t);
                             TClose t].
Proof.
  intros Hstop Hs Hc. rewrite (AddSub_running i t w Hstop).
  set (c := fresh (dom (chans w))). set (w1 := emit _ _).
  assert (Hfresh : chans w !! c = None) by apply not_elem_of_dom, is_fresh.
  destruct (delSub_open i w1) as (w2 & Hrun & Hs2 & Hc2 & Hrest & Hch & Ht).
  { subst w1. cbn. rewrite lookup_insert_eq. intros c' [= <-].
    eexists. by rewrite lookup_insert_eq. }
  exists w1, w2, c. rewrite Hs2, Hc2, Hch, Ht, Hrest. subst w1.
  unfold lookup_iface. cbn. rewrite !lookup_insert_eq. split_and!; try done.
  - by apply delete_insert_id.
  - by apply delete_insert_id.
  - by rewrite lookup_alter, decide_True, lookup_insert_eq.
  - intros c' Hc'. by rewrite lookup_alter_ne, lookup_insert_ne.
  - by rewrite <- !app_assoc.
Qed.

(** ** [Close] *)

(** X7: [Close] on a running router that has a handler but no publisher
    calls the handler and then panics in [delPub], whose log statement
    calls [ID()] on the nil publisher before the nil test.  The stop flag
    stays unset and no subscriber is removed; a further [Close] calls the
    handler once more and panics in the same way. *)
Theorem Close_without_publisher (ord ord' : list string) (f : Handler) (w : World) :
  stop (router w) = false →
  onCloseHandler (router w) = Some f →
  pub (router w) = None →
  ∃ w', Close ord w = (Panicked NilDereference, w')
    ∧ router w' = router w ∧ chans w' = chans w
    ∧ trace w' = trace w ++ [HandlerCall f]
    ∧ ∃ w'', Close ord' w' = (Panicked NilDereference, w'')
        ∧ router w'' = router w
        ∧ trace w'' = trace w ++ [HandlerCall f; HandlerCall f].
Proof.
  intros Hs Hh Hp.
  assert (Hone : ∀ o v, stop (router v) = false →
            onCloseHandler (router v) = Some f → pub (router v) = None →
            Close o v = (Panicked NilDereference, emit (HandlerCall f) v)).
  { intros o v Hs' Hh' Hp'. unfold Close, delPub. run_go.
    rewrite Hs', Hh'. cbn. by rewrite Hp'. }
  rewrite (Hone ord w Hs Hh Hp). eexists. split_and!; try done.
  rewrite (Hone ord' (emit (HandlerCall f) w) Hs Hh Hp).
  eexists. split_and!; try done. cbn. by rewrite <- app_assoc.
Qed.

Lemma wf_rtc_sub_move (k k' : Core) : rtc sub_move k k' → wf k → wf k'.
Proof.
  induction 1 as [|k1 k2 k3 Hm _ IH]; [done|].
  intros Hwf. apply IH. eapply core_move_wf; [|exact Hwf]. by apply move_sub.
Qed.

Lemma closed_alter_close (m : gmap nat Chan) (c c' : nat) :
  closed <$> m !! c = Some true →
  closed <$> alter close_cell c' m !! c = Some true.
Proof.
  intros H. rewrite lookup_alter. case_decide as E; [subst c'|done].
  destruct (m !! c); [done|discriminate].
Qed.

Lemma lookup_delete_keys {A} (m m1 m' : gmap string A) (i : string)
    (keys : list string) :
  m1 = delete i m →
  (∀ j, m' !! j = if decide (j ∈ keys) then None else m1 !! j) →
  ∀ j, m' !! j = if decide (j ∈ i :: keys) then None else m !! j.
Proof.
  intros -> H j. rewrite H.
  destruct (decide (j ∈ keys)) as [Hj|Hj], (decide (j ∈ i :: keys)) as [Hj'|Hj'];
    try done.
  - exfalso. apply Hj'. by right.
  - apply elem_of_cons in Hj' as [->|?]; [|done]. apply lookup_delete_eq.
  - apply lookup_delete_ne. intros ->. apply Hj'. by left.
Qed.

(** [delSub] of each id of a list without repetition, in a well-formed
    world. *)
Lemma delSub_keys (keys : list string) :
  NoDup keys → ∀ w, wf (core w) →
  ∃ w', for_each keys delSub w = (Returned tt, w')
    ∧ (∀ j, subs (router w') !! j
            = if decide (j ∈ keys) then None else subs (router w) !! j)
    ∧ (∀ j, subChans (router w') !! j
            = if decide (j ∈ keys) then None else subChans (router w) !! j)
    ∧ router_rest (router w') = router_rest (router w)
    ∧ (∀ i c, i ∈ keys → subChans (router w) !! i = Some c →
              closed <$> chans w' !! c = Some true)
    ∧ (∀ c, closed <$> chans w !! c = Some true →
            closed <$> chans w' !! c = Some true)
    ∧ trace w' = trace w
        ++ (TClose <$> omap (lookup_iface (subs (router w))) keys).
Proof.
  induction 1 as [|i keys Hi Hnd IH]; intros w Hwf.
  - exists w. cbn. split_and!; try done.
    + intros i c Hin. by apply elem_of_nil in Hin.
    + by rewrite app_nil_r.
  - destruct (delSub_open i w) as (w1 & Hrun & Hs & Hc & Hrest & Hch & Ht).
    { intros c Hc. by apply (wf_chans_open w i). }
    assert (Hwf1 : wf (core w1)).
    { pose proof (delSub_moves i w) as Hm. rewrite Hrun in Hm.
      by apply (wf_rtc_sub_move _ _ Hm). }
    assert (Hmono : ∀ c, closed <$> chans w !! c = Some true →
                         closed <$> chans w1 !! c = Some true).
    { intros c Hcl. rewrite Hch. destruct (subChans (router w) !! i); [|done].
      by apply closed_alter_close. }
    destruct (IH w1 Hwf1) as (w' & Hrun' & Hs' & Hc' & Hrest' & Hcl' & Hmono' & Ht').
    exists w'. cbn [for_each]. rewrite run_bind, Hrun, Hrun'. split_and!.
    + done.
    + by apply (lookup_delete_keys _ (subs (router w1))).
    + by apply (lookup_delete_keys _ (subChans (router w1))).
    + by rewrite Hrest'.
    + intros j c [->|Hj]%elem_of_cons Hjc.
      * apply Hmono'. rewrite Hch, Hjc, lookup_alter, decide_True by done.
        destruct (wf_chans_open w i c Hwf Hjc) as (ch & -> & _). done.
      * apply (Hcl' j); [done|]. rewrite Hc, lookup_delete_ne; [done|].
        intros ->. done.
    + intros c Hcl. by apply Hmono', Hmono.
    + rewrite Ht', Ht. cbn [omap]. rewrite <- app_assoc. f_equal.
      assert (Hrest_eq : omap (lookup_iface (subs (router w1))) keys
                         = omap (lookup_iface (subs (router w))) keys).
      { clear -Hi Hs. revert Hi.
        induction keys as [|j keys IHk]; intros Hi; [reflexivity|].
        apply not_elem_of_cons in Hi as [Hij Hi]. cbn.
        rewrite (IHk Hi).
        unfold lookup_iface at 1 3. by rewrite Hs, lookup_delete_ne. }
      rewrite Hrest_eq. cbn. by destruct (lookup_iface (subs (router w)) i).
Qed.

(** X6: [Close] on a running router that has a handler and a publisher,
    whatever has happened to it before, returns.  It calls the handler,
    then [ID()] and [Close] on the publisher, closes the plugin chain, and
    closes the transport of every subscriber, in the order in which the
    map is traversed.  Afterwards the stop flag is set, the publisher is
    nil, both subscriber maps are empty, and every queue that was
    registered is closed. *)
Theorem Close_tears_down (i0 : string) (cfg : RouterConfig) (ops : list Op)
    (ord : list string) (f : Handler) (p : Transport) :
  let w := run ops (NewWorld i0 cfg) in
  stop (router w) = false →
  onCloseHandler (router w) = Some f →
  pub (router w) = Some p →
  ∃ w', Close ord w = (Returned tt, w')
    ∧ stop (router w') = true
    ∧ pub (router w') = None
    ∧ subs (router w') = ∅
    ∧ subChans (router w') = ∅
    ∧ onCloseHandler (router w') = Some f
    ∧ (∀ i c, subChans (router w) !! i = Some c →
              closed <$> chans w' !! c = Some true)
    ∧ trace w' = trace w
        ++ [HandlerCall f; TID p; TClose p; ChainClose]
        ++ (TClose <$> omap (lookup_iface (subs (router w)))
                            (range_keys ord (subs (router w)))).
Proof.
  intros w Hs Hh Hp.
  pose proof (wf_run i0 cfg ops) as Hwf. fold w in Hwf.
  pose proof (same_keys_run i0 cfg ops) as Hkeys. fold w in Hkeys.
  unfold same_keys in Hkeys. cbn in Hkeys.
  set (W := with_router (set_stop true)
              (with_router (set_pub None)
                 (emit ChainClose (emit (TClose p) (emit (TID p)
                    (emit (HandlerCall f) w)))))).
  assert (HW : Close ord w = delSubs ord W).
  { unfold Close, delPub. run_go. rewrite Hs, Hh. cbn. by rewrite Hp. }
  destruct (delSub_keys (range_keys ord (subs (router W)))
              (NoDup_range_keys _ _) W) as (w' & Hrun & Hs' & Hc' & Hrest & Hcl & _ & Ht).
  { exact Hwf. }
  exists w'. rewrite HW. unfold delSubs. rewrite run_bind, run_get.
  split; [exact Hrun|].
  injection Hrest as _ Hpub Hstop _ _ Hhandler.
  split_and!.
  - by rewrite Hstop.
  - by rewrite Hpub.
  - apply map_empty. intros j. rewrite Hs'. case_decide as Hj; [done|].
    destruct (subs (router W) !! j) eqn:E; [|done].
    exfalso. apply Hj, elem_of_range_keys. by rewrite E.
  - apply map_empty. intros j. rewrite Hc'. case_decide as Hj; [done|].
    apply not_elem_of_dom. change (subChans (router W)) with (subChans (router w)).
    rewrite <- Hkeys. intros Hd. apply Hj, elem_of_range_keys.
    by apply elem_of_dom in Hd.
  - by rewrite Hhandler.
  - intros i c Hic. apply (Hcl i); [|exact Hic].
    apply elem_of_range_keys. change (subs (router W)) with (subs (router w)).
    apply elem_of_dom. rewrite Hkeys. apply elem_of_dom. by eexists.
  - rewrite Ht. cbn. by rewrite <- !app_assoc.
Qed.

(** ** Invariants of runs *)

Lemma rtc_core_move_inv (P : Core → Prop) (k k' : Core) :
  (∀ k1 k2, core_move k1 k2 → P k1 → P k2) → rtc core_move k k' → P k → P k'.
Proof. intros Hm Hrtc. induction Hrtc; eauto. Qed.

(** X8: once the stop flag is set it stays set through every run: [Close]
    writes [true] to it and no operation writes anything else. *)
Theorem stop_flag_stays_set (ops : list Op) (w : World) :
  stop (router w) = true → stop (router (run ops w)) = true.
Proof.
  intros Hs.
  apply (run_core_inv (λ k, c_stop k = true) ops w); [|exact Hs].
  intros k k' Hm Hk.
  destruct Hm as [k k' Hsub|k|f k]; [|done|done].
  by destruct Hsub.
Qed.

(** X9: a channel that has been closed stays closed through every run:
    no operation reopens it or allocates it again. *)
Theorem closed_channel_stays_closed (ops : list Op) (w : World) (c : nat) :
  closed <$> chans w !! c = Some true →
  closed <$> chans (run ops w) !! c = Some true.
Proof.
  intros Hc.
  assert (H : c_closed (core (run ops w)) !! c = Some true).
  { apply (run_core_inv (λ k, c_closed k !! c = Some true)).
    - intros k k' Hm Hk.
      destruct Hm as [k k' Hsub|k|f k]; [|done|done].
      destruct Hsub as [i t k _|i k Hopen]; cbn.
      + rewrite lookup_insert_ne; [done|]. intros <-.
        by rewrite fresh_chan_unused in Hk.
      + destruct (c_subChans k !! i) as [c'|]; [|done].
        destruct (decide (c' = c)) as [->|Hne].
        * by rewrite lookup_insert_eq.
        * by rewrite lookup_insert_ne.
    - cbn. by rewrite lookup_fmap. }
  cbn in H. by rewrite lookup_fmap in H.
Qed.

(** X10: on a router reached by any run from [NewRouter], the queue
    registered for a subscriber is allocated and open, and no two
    subscribers are registered with the same queue. *)
Theorem registered_queues_open_and_distinct (i0 : string) (cfg : RouterConfig)
    (ops : list Op) :
  let w := run ops (NewWorld i0 cfg) in
  (∀ i c, subChans (router w) !! i = Some c →
          ∃ ch, chans w !! c = Some ch ∧ closed ch = false)
  ∧ (∀ i j c, subChans (router w) !! i = Some c →
              subChans (router w) !! j = Some c → i = j).
Proof.
  intros w. pose proof (wf_run i0 cfg ops) as Hwf. fold w in Hwf. split.
  - intros i c. by apply wf_chans_open.
  - apply Hwf.
Qed.

Lemma step_reads_moves (op : Op) :
  reads_bookkeeping op = true → moves no_move (step op).
Proof.
  destruct op; cbn [step reads_bookkeeping]; try discriminate; intros _.
  - apply moves_bind; [apply AddPub_moves | intros _; apply moves_mret].
  - apply moves_bind; [apply start_body_moves | intros _; apply moves_mret].
  - apply moves_bind; [apply subFeedbackLoop_body_moves | intros _; apply moves_mret].
  - apply moves_bind; [apply moves_get|]. intros w.
    destruct (rembChan (router w)); [apply moves_mret|].
    apply moves_bind; [by apply moves_modify_same|]. intros _.
    apply moves_bind; [apply rembLoop_body_moves | intros _; apply moves_mret].
  - by apply moves_modify_same.
Qed.

(** X11: attaching a publisher, an iteration of the fan-out loop, of a
    feedback loop or of the REMB loop, and a change of the plugin chain
    never touch the bookkeeping, whatever their outcome: both subscriber
    maps, the stop flag and the close handler are as before, no channel
    is allocated and none is closed. *)
Theorem readers_leave_bookkeeping (op : Op) (w : World) :
  reads_bookkeeping op = true →
  subs (router (step op w).2) = subs (router w)
  ∧ subChans (router (step op w).2) = subChans (router w)
  ∧ stop (router (step op w).2) = stop (router w)
  ∧ onCloseHandler (router (step op w).2) = onCloseHandler (router w)
  ∧ ∀ c, closed <$> chans (step op w).2 !! c = closed <$> chans w !! c.
Proof.
  intros Hop. pose proof (step_reads_moves op Hop w) as Hm.
  assert (E : core (step op w).2 = core w).
  { destruct Hm as [|k1 k2 k3 []]. done. }
  injection E as E1 E2 E3 E4 E5. split_and!; try done.
  intros c. by rewrite <- !lookup_fmap, E5.
Qed.

(** ** Invariants of the channel heap *)

Section keeps.
Context (I : World → Prop).
Hypothesis I_emit : ∀ e w, I w → I (emit e w).
Hypothesis I_router : ∀ f w, I w → I (with_router f w).
Hypothesis I_make : keeps I (make_chan 1000).
Hypothesis I_close : ∀ c, keeps I (close_chan c).
Hypothesis I_send : ∀ c p, keeps I (try_send c p).
Hypothesis I_recv : ∀ c, keeps I (recv c).

Lemma keeps_mret {A} (a : A) : keeps I (mret a : M A).
Proof. by intros w. Qed.

Lemma keeps_panic {A} (p : Panic) : keeps I (panic p : M A).
Proof. by intros w. Qed.

Lemma keeps_get : keeps I get.
Proof. by intros w. Qed.

Lemma keeps_call (e : Event) : keeps I (call e).
Proof. intros w. apply I_emit. Qed.

Lemma keeps_modify_router (f : Router → Router) :
  keeps I (modify (with_router f)).
Proof. intros w. apply I_router. Qed.

Lemma keeps_deref (t : option Transport) : keeps I (deref t).
Proof. destruct t; [apply keeps_mret | apply keeps_panic]. Qed.

Lemma keeps_bind {A B} (m : M A) (k : A → M B) :
  keeps I m → (∀ a, keeps I (k a)) → keeps I (m ≫= k).
Proof.
  intros Hm Hk w Hw. rewrite run_bind. specialize (Hm w Hw).
  destruct (m w) as [[a|p] w1]; cbn [snd] in *; [by apply Hk | done].
Qed.

Lemma keeps_for_each {A} (xs : list A) (body : A → M unit) :
  (∀ x, keeps I (body x)) → keeps I (for_each xs body).
Proof.
  intros Hb. induction xs as [|x xs IH]; cbn [for_each].
  - apply keeps_mret.
  - apply keeps_bind; [apply Hb | intros _; apply IH].
Qed.

Ltac keeps_go :=
  repeat first
    [ apply keeps_mret | apply keeps_panic | apply keeps_get
    | apply keeps_call | apply keeps_deref | apply keeps_modify_router
    | apply I_make | apply I_close | apply I_send | apply I_recv
    | apply keeps_for_each; intros ?
    | apply keeps_bind; [|intros ?]
    | match goal with
      | |- keeps _ (match ?x with _ => _ end) => destruct x
      end ].

Lemma delSub_keeps (i : string) : keeps I (delSub i).
Proof. unfold delSub. keeps_go. Qed.

Lemma AddSub_keeps (i : string) (t : option Transport) : keeps I (AddSub i t).
Proof. unfold AddSub. keeps_go. Qed.

Lemma AddPub_keeps (t : option Transport) : keeps I (AddPub t).
Proof. unfold AddPub, start. keeps_go. Qed.

Lemma Close_keeps (ord : list string) : keeps I (Close ord).
Proof.
  unfold Close, delPub, delSubs. keeps_go.
Qed.

Lemma start_body_keeps rd ord : keeps I (start_body rd ord).
Proof. unfold start_body, fanout, GetSubs. keeps_go. Qed.

Lemma subWriteLoop_on_keeps c trans answers :
  keeps I (subWriteLoop_on c trans answers).
Proof.
  induction answers as [|a rest IH]; cbn [subWriteLoop_on]; [apply keeps_mret|].
  apply keeps_bind; [apply I_recv|]. intros [pkt| |]; try apply keeps_mret.
  apply keeps_bind; [|intros _; apply IH].
  unfold subWriteLoop_body. keeps_go.
Qed.

Lemma rembLoop_body_keeps a s : keeps I (rembLoop_body a s).
Proof. unfold rembLoop_body, GetPub. keeps_go. Qed.

Lemma subFeedbackLoop_body_keeps subID trans pkt :
  keeps I (subFeedbackLoop_body subID trans pkt).
Proof.
  unfold subFeedbackLoop_body, nack_pair_body, resendRTP, GetPub, GetSub.
  keeps_go.
Qed.

Lemma step_keeps (op : Op) : keeps I (step op).
Proof.
  destruct op; cbn [step].
  - apply keeps_bind; [apply AddPub_keeps | intros _; apply keeps_mret].
  - apply keeps_bind; [apply AddSub_keeps | intros _; apply keeps_mret].
  - apply delSub_keeps.
  - apply Close_keeps.
  - apply keeps_modify_router.
  - apply keeps_bind; [apply start_body_keeps | intros _; apply keeps_mret].
  - apply subWriteLoop_on_keeps.
  - apply keeps_bind; [apply subFeedbackLoop_body_keeps | intros _; apply keeps_mret].
  - apply keeps_bind; [apply keeps_get|]. intros w.
    destruct (rembChan (router w)); [apply keeps_mret|].
    apply keeps_bind; [apply keeps_modify_router|]. intros _.
    apply keeps_bind; [apply rembLoop_body_keeps | intros _; apply keeps_mret].
  - apply keeps_modify_router.
Qed.

Lemma run_keeps (ops : list Op) (w : World) : I w → I (run ops w).
Proof. intros Hw. apply run_ind; [done|]. intros op w'. apply step_keeps. Qed.

End keeps.

(** X12: on a router reached by any run from [NewRouter], every channel
    has capacity 1000 and buffers at most 1000 packets. *)
Theorem queues_stay_bounded (i0 : string) (cfg : RouterConfig) (ops : list Op) :
  ∀ c ch, chans (run ops (NewWorld i0 cfg)) !! c = Some ch →
          cap ch = 1000 ∧ length (buf ch) ≤ 1000.
Proof.
  assert (H : bounded_queues (run ops (NewWorld i0 cfg))).
  { apply run_keeps.
    - done.
    - done.
    - intros w Hw c ch. unfold make_chan; cbn.
      destruct (decide (c = fresh (dom (chans w)))) as [->|Hne].
      + rewrite lookup_insert_eq. intros [= <-]. cbn. lia.
      + rewrite lookup_insert_ne by done. apply Hw.
    - intros c0 w Hw c ch. unfold close_chan.
      destruct (chans w !! c0) as [ch0|] eqn:E0; [|apply Hw].
      destruct (closed ch0); [apply Hw|]. cbn.
      destruct (decide (c = c0)) as [->|Hne].
      + rewrite lookup_insert_eq. intros [= <-]. cbn. by apply (Hw c0).
      + rewrite lookup_insert_ne by done. apply Hw.
    - intros c0 p w Hw c ch. unfold try_send.
      destruct (c0 ≫= _) as [[h ch0]|] eqn:E0; [|apply Hw].
      apply chan_lookup_Some in E0 as [_ Hh].
      destruct (closed ch0); [apply Hw|]. case_decide as Hroom; [|apply Hw]. cbn.
      destruct (decide (c = h)) as [->|Hne].
      + rewrite lookup_insert_eq. intros [= <-]. cbn.
        destruct (Hw h ch0 Hh) as [Hcap _]. rewrite length_app. cbn. lia.
      + rewrite lookup_insert_ne by done. apply Hw.
    - intros c0 w Hw c ch. unfold recv.
      destruct (c0 ≫= _) as [[h ch0]|] eqn:E0; [|apply Hw].
      apply chan_lookup_Some in E0 as [_ Hh].
      destruct (buf ch0) as [|p rest] eqn:Eb; [apply Hw|]. cbn.
      destruct (decide (c = h)) as [->|Hne].
      + rewrite lookup_insert_eq. intros [= <-]. cbn.
        destruct (Hw h ch0 Hh) as [Hcap Hlen]. rewrite Eb in Hlen. cbn in Hlen.
        lia.
      + rewrite lookup_insert_ne by done. apply Hw.
    - intros c ch. cbn. by rewrite lookup_empty. }
  intros c ch Hc. destruct (H c ch Hc) as [H1 H2]. split; [done|lia].
Qed.

(** ** The writer loop *)

(** X13: a writer loop whose writes succeed takes the packets buffered in
    its channel in the order in which they were queued: for each one it
    calls [WriteRTP] and then [WriteErrReset], and it leaves the channel
    empty.  This holds for a closed channel as well: what was buffered
    when [delSub] closed the queue is still written to the transport.  The
    router is not changed. *)
Theorem subWriteLoop_drains_in_order (c : nat) (trans : Transport)
    (answers : list WriteAnswer) (ch : Chan) (w : World) :
  chans w !! c = Some ch →
  length (buf ch) ≤ length answers →
  Forall (λ a, wa_err a = false) answers →
  ∃ w', subWriteLoop_on (Some c) trans answers w = (Returned tt, w')
    ∧ router w' = router w
    ∧ chans w' = <[c := mkChan [] (cap ch) (closed ch)]> (chans w)
    ∧ trace w' = trace w ++ concat (written trans <$> buf ch).
Proof.
  revert ch w. induction answers as [|a rest IH]; intros ch w Hc Hlen Hok.
  - destruct (buf ch) eqn:Eb; [|cbn in Hlen; lia].
    exists w. cbn. rewrite app_nil_r. split_and!; try done.
    rewrite <- Eb, chan_eta. by rewrite insert_id.
  - cbn [subWriteLoop_on]. rewrite run_bind. unfold recv. cbn. rewrite Hc. cbn.
    destruct (buf ch) as [|p ps] eqn:Eb.
    + exists w. destruct (closed ch) eqn:Ecl; cbn; rewrite app_nil_r;
        (split_and!; try done); rewrite <- Ecl, <- Eb, chan_eta;
        by rewrite insert_id.
    + apply Forall_cons in Hok as [Ha Hok].
      unfold subWriteLoop_body. rewrite Ha. run_go. cbn.
      set (w1 := emit _ _).
      destruct (IH (mkChan ps (cap ch) (closed ch)) w1) as (w' & Hrun & Hr & Hch & Ht).
      { subst w1. cbn. by rewrite lookup_insert_eq. }
      { cbn in *. lia. }
      { done. }
      exists w'. rewrite Hrun, Hr, Hch, Ht. subst w1. cbn.
      split_and!; try done.
      * by rewrite insert_insert_eq.
      * by rewrite <- !app_assoc.
Qed.

(** ** The feedback loop *)

(** What handling one NACK pair calls when the router has publisher [p]:
    a resend to the transport registered for the subscriber, or the
    single-pair NACK to the publisher. *)
Lemma nack_pair_body_call (subID : string) (nack : TransportLayerNack)
    (nackPair : NackPair) (p : Transport) (w : World) :
  pub (router w) = Some p →
  ∃ w' e, nack_pair_body subID nack nackPair w = (Returned tt, w')
    ∧ router w' = router w ∧ chans w' = chans w
    ∧ trace w' = trace w ++ [e]
    ∧ (e = TWriteRTCP p (NACK (single_nack nack nackPair))
       ∨ ∃ s pkt, e = TWriteRTP s pkt
                  ∧ lookup_iface (subs (router w)) subID = Some s).
Proof.
  intros Ep. unfold nack_pair_body, resendRTP. run_go. rewrite Ep. run_go.
  destruct (GetPlugin _ _) as [hd|] eqn:Eg; run_go; rewrite ?Ep; run_go.
  - destruct (GetPlugin_jitter _ _ Eg) as [jb ->]. run_go.
    destruct (GetPacket jb _ _) as [pkt|] eqn:Ek; run_go; rewrite ?Ep; run_go.
    + destruct (lookup_iface _ _) as [s|] eqn:Es; run_go; rewrite ?Ep; run_go.
      * eexists _, _. split_and!; try done. right. by exists s, pkt.
      * eexists _, _. split_and!; try done. by left.
    + eexists _, _. split_and!; try done. by left.
  - eexists _, _. split_and!; try done. by left.
Qed.

Lemma nack_pairs_calls (subID : string) (nack : TransportLayerNack)
    (p : Transport) (pairs : list NackPair) :
  ∀ w, pub (router w) = Some p →
  ∃ w' evs, for_each pairs (nack_pair_body subID nack) w = (Returned tt, w')
    ∧ router w' = router w ∧ chans w' = chans w
    ∧ trace w' = trace w ++ evs
    ∧ Forall2 (λ nackPair e,
                 e = TWriteRTCP p (NACK (single_nack nack nackPair))
                 ∨ ∃ s pkt, e = TWriteRTP s pkt
                            ∧ lookup_iface (subs (router w)) subID = Some s)
              pairs evs.
Proof.
  induction pairs as [|np pairs IH]; intros w Ep.
  - exists w, []. cbn. rewrite app_nil_r. by split_and!.
  - destruct (nack_pair_body_call subID nack np p w Ep)
      as (w1 & e & Hrun & Hr & Hc & Ht & He).
    destruct (IH w1) as (w' & evs & Hrun' & Hr' & Hc' & Ht' & Hall).
    { by rewrite Hr. }
    exists w', (e :: evs). cbn [for_each]. rewrite run_bind, Hrun, Hrun'.
    rewrite Hr', Hc', Ht', Ht, Hr, Hc, <- app_assoc. split_and!; try done.
    constructor; [done|]. by rewrite Hr in Hall.
Qed.

(** X14: a feedback loop of a running router that receives a NACK makes
    one call for each pair of the NACK, in the order of the pairs, when the
    router has a publisher: the call is either a resend, which goes to the
    transport registered under the subscriber's id and to no other, or the
    single-pair NACK for that pair, which goes to the publisher.  Without
    a publisher it makes no call.  The loop goes on, and neither the router
    nor any channel is changed. *)
Theorem nack_one_call_per_pair (subID : string) (trans : Transport)
    (nack : TransportLayerNack) (w : World) :
  stop (router w) = false →
  ∃ w' evs,
    subFeedbackLoop_body subID trans (NACK nack) w = (Returned Continue, w')
    ∧ router w' = router w ∧ chans w' = chans w
    ∧ trace w' = trace w ++ evs
    ∧ match pub (router w) with
      | None => evs = []
      | Some p =>
        Forall2 (λ nackPair e,
                   e = TWriteRTCP p (NACK (single_nack nack nackPair))
                   ∨ ∃ s pkt, e = TWriteRTP s pkt
                              ∧ lookup_iface (subs (router w)) subID = Some s)
                (Nacks nack) evs
      end.
Proof.
  intros Hs. unfold subFeedbackLoop_body. rewrite run_bind, run_get, Hs, run_bind.
  destruct (pub (router w)) as [p|] eqn:Ep.
  - destruct (nack_pairs_calls subID nack p (Nacks nack) w Ep)
      as (w' & evs & Hrun & Hr & Hc & Ht & Hall).
    exists w', evs. by rewrite Hrun.
  - assert (Hnone : ∀ pairs v, pub (router v) = None →
              for_each pairs (nack_pair_body subID nack) v = (Returned tt, v)).
    { induction pairs as [|np pairs IH]; intros v Ev; [done|].
      cbn [for_each]. rewrite run_bind.
      assert (E1 : nack_pair_body subID nack np v = (Returned tt, v)).
      { unfold nack_pair_body, resendRTP. run_go. rewrite Ev. run_go.
        by rewrite Ev. }
      rewrite E1. by apply IH. }
    rewrite (Hnone _ w Ep). exists w, []. rewrite app_nil_r. by cbn.
Qed.

(** ** The REMB loop between two emissions *)

Section remb_quiet.
Local Open Scope Z_scope.

Lemma rembLoop_body_not_due (lo hi last : Z) win (a : Arrival) (w : World) :
  arr_since a - last ≤ maxRembTime →
  rembLoop_body a (stats_of lo hi last win) w
  = (Returned (stats_of lo hi last (win ++ [arr_pkt a])), w).
Proof.
  intros Hq. unfold rembLoop_body.
  cbn [stats_of lastRembTime rembMin rembMax lowest rembCount rembTotalRate].
  destruct (Z.gtb_spec (arr_since a - last) maxRembTime) as [?|_]; [lia|].
  rewrite run_mret. unfold stats_of.
  rewrite window_min_snoc, window_sum_snoc, length_app, uint64_succ, uint64_add.
  cbn [length].
  assert (Hlow : (if Bitrate (arr_pkt a) <? window_min win
                  then Bitrate (arr_pkt a) else window_min win)
                 = Z.min (window_min win) (Bitrate (arr_pkt a))).
  { destruct (Z.ltb_spec (Bitrate (arr_pkt a)) (window_min win)); lia. }
  by rewrite Hlow.
Qed.

(** X15: as long as no more than 200 ms have passed since the last
    emission (200 ms exactly included), the REMB loop returns, writes
    nothing and leaves the world as it was; it only accumulates.  From the
    locals of an open window (those of the start of the loop are the
    locals of the empty window) it reaches the locals of the window
    extended by the packets received: [lowest] is the least bit rate of
    the window, the count and the sum are those of the window modulo
    2^64, and the bounds and the time of the last emission are kept. *)
Theorem rembLoop_quiet_until_due (lo hi last : Z)
    (win : list ReceiverEstimatedMaximumBitrate) (arrivals : list Arrival)
    (w : World) :
  Forall (λ a, arr_since a - last ≤ maxRembTime) arrivals →
  rembLoop_from arrivals (stats_of lo hi last win) w
  = (Returned (stats_of lo hi last (win ++ (arr_pkt <$> arrivals))), w).
Proof.
  revert win. induction arrivals as [|a rest IH]; intros win Hq.
  - cbn. by rewrite app_nil_r.
  - apply Forall_cons in Hq as [Ha Hq]. cbn [rembLoop_from].
    rewrite run_bind, rembLoop_body_not_due by done.
    rewrite IH by done. by rewrite fmap_cons, <- app_assoc.
Qed.

End remb_quiet.

(** ** The fan-out loop over many packets *)

(** One iteration of the fan-out loop in a well-formed world. *)
Lemma start_body_wf (rd : ReadResult) (ord : list string) (w : World) :
  wf (core w) → same_keys (core w) →
  stop (router w) = false →
  (On (pluginChain (router w)) = false → is_Some (pub (router w))) →
  ∃ w', start_body rd ord w = (Returned Continue, w')
    ∧ router w' = router w
    ∧ core w' = core w
    ∧ match source_packet w rd with
      | None => chans w' = chans w
      | Some p =>
        ∀ i c ch, subChans (router w) !! i = Some c → chans w !! c = Some ch →
                  chans w' !! c = Some (deliver p ch)
      end.
Proof.
  intros Hwf Hkeys Hstop Hsrc. unfold same_keys in Hkeys. cbn in Hkeys.
  assert (Hcore : core (start_body rd ord w).2 = core w).
  { pose proof (start_body_moves no_move rd ord w) as Hm.
    destruct Hm as [|k1 k2 k3 []]. done. }
  assert (Hread : ∃ w1,
    (if On (pluginChain (router w))
     then call ChainReadRTP;; mret (rd_pkt rd)
     else p ← deref (pub (router w));
          call (TReadRTP p);;
          mret (if rd_err rd then None else rd_pkt rd)) w
    = (Returned (source_packet w rd), w1)
    ∧ router w1 = router w ∧ chans w1 = chans w).
  { unfold source_packet. destruct (On _).
    - by eexists.
    - destruct Hsrc as [p Hp]; [done|]. rewrite Hp. by eexists. }
  destruct Hread as (w1 & Hread & Hr1 & Hc1).
  revert Hcore. unfold start_body.
  rewrite run_bind, run_get, Hstop, run_bind, Hread.
  destruct (source_packet w rd) as [p|].
  - unfold fanout, GetSubs. rewrite !run_bind, run_get, run_mret.
    destruct (fanout_keys p (range_keys ord (subs (router w1)))
                (NoDup_range_keys _ _) w1) as (w' & Hrun & Hr & _ & Hdel & _).
    { intros i Hi. apply elem_of_range_keys in Hi. rewrite Hr1 in *.
      apply elem_of_dom in Hi. rewrite Hkeys in Hi.
      apply elem_of_dom in Hi as [c Hc].
      destruct (wf_chans_open w i c Hwf Hc) as (ch & Hch & Hcl).
      exists c, ch. by rewrite Hc1. }
    { rewrite Hr1. apply Hwf. }
    rewrite Hrun, run_mret. intros Hcore. exists w'.
    split_and!; [done|by rewrite Hr|done|].
    intros i c ch Hic Hcc. apply (Hdel i); [|by rewrite Hr1|by rewrite Hc1].
    apply elem_of_range_keys. rewrite Hr1. apply elem_of_dom. rewrite Hkeys.
    apply elem_of_dom. by eexists.
  - rewrite run_mret. intros Hcore. by exists w1.
Qed.

Lemma deliver_all (ps : list Packet) : ∀ ch,
  closed ch = false →
  foldl (λ ch p, deliver p ch) ch ps
  = mkChan (buf ch ++ take (cap ch - length (buf ch)) ps) (cap ch) false.
Proof.
  induction ps as [|p ps IH]; intros ch Hcl.
  - cbn. rewrite take_nil, app_nil_r, <- Hcl. by destruct ch.
  - cbn [foldl]. unfold deliver at 2. case_decide as Hroom.
    + rewrite IH by done. cbn. rewrite length_app. cbn. f_equal.
      replace (cap ch - length (buf ch)) with (S (cap ch - (length (buf ch) + 1))) by lia.
      cbn. by rewrite <- app_assoc.
    + rewrite IH by done.
      replace (cap ch - length (buf ch)) with 0 by lia. done.
Qed.

Lemma start_loop_wf (reads : list (ReadResult * list string)) :
  ∀ w, wf (core w) → same_keys (core w) →
  stop (router w) = false →
  (On (pluginChain (router w)) = false → is_Some (pub (router w))) →
  ∃ w', start_loop reads w = (Returned tt, w')
    ∧ router w' = router w
    ∧ ∀ i c ch, subChans (router w) !! i = Some c → chans w !! c = Some ch →
        chans w' !! c
        = Some (foldl (λ ch p, deliver p ch) ch
                      (omap (λ r, source_packet w r.1) reads)).
Proof.
  induction reads as [|[rd ord] reads IH]; intros w Hwf Hkeys Hstop Hsrc.
  - exists w. by split_and!.
  - destruct (start_body_wf rd ord w Hwf Hkeys Hstop Hsrc)
      as (w1 & Hrun & Hr & Hcore & Hdel).
    destruct (IH w1) as (w' & Hrun' & Hr' & Hdel').
    { by rewrite Hcore. } { by rewrite Hcore. } { by rewrite Hr. } { by rewrite Hr. }
    exists w'. cbn [start_loop]. rewrite run_bind, Hrun, Hrun'.
    split_and!; [done|by rewrite Hr', Hr|].
    intros i c ch Hic Hcc.
    assert (Hsp : ∀ r : ReadResult * list string,
              source_packet w1 r.1 = source_packet w r.1).
    { intros r. unfold source_packet. by rewrite Hr. }
    assert (Homap : omap (λ r, source_packet w1 r.1) reads
                    = omap (λ r, source_packet w r.1) reads).
    { clear -Hsp. induction reads as [|r reads IHr]; [done|]. cbn.
      by rewrite Hsp, IHr. }
    cbn [omap list_omap fst]. destruct (source_packet w rd) as [p|] eqn:Ep.
    + rewrite (Hdel' i c (deliver p ch)), Homap; [done|by rewrite Hr|by apply (Hdel i)].
    + rewrite (Hdel' i c ch), Homap; [done|by rewrite Hr|by rewrite Hdel].
Qed.

(** X16: the fan-out loop over any number of reads, on a running router
    with a source, whatever has happened to the router before.  The loop
    returns and leaves the router as it was.  The queue of each subscriber
    holds afterwards what it held before, followed by the packets read
    (nil packets and failed reads apart) in the order in which they were
    read, as far as its capacity goes: the packets that found the queue
    full are lost, those queued earlier are kept. *)
Theorem fanout_keeps_order_drops_overflow (i0 : string) (cfg : RouterConfig)
    (ops : list Op) (reads : list (ReadResult * list string))
    (i : string) (c : nat) (ch : Chan) :
  let w := run ops (NewWorld i0 cfg) in
  stop (router w) = false →
  (On (pluginChain (router w)) = false → is_Some (pub (router w))) →
  subChans (router w) !! i = Some c →
  chans w !! c = Some ch →
  ∃ w', start_loop reads w = (Returned tt, w')
    ∧ router w' = router w
    ∧ chans w' !! c
      = Some (mkChan (buf ch ++ take (cap ch - length (buf ch))
                                     (omap (λ r, source_packet w r.1) reads))
                     (cap ch) false).
Proof.
  intros w Hstop Hsrc Hic Hcc.
  pose proof (wf_run i0 cfg ops) as Hwf. fold w in Hwf.
  pose proof (same_keys_run i0 cfg ops) as Hkeys. fold w in Hkeys.
  destruct (start_loop_wf reads w Hwf Hkeys Hstop Hsrc) as (w' & Hrun & Hr & Hdel).
  exists w'. split_and!; [done|done|].
  rewrite (Hdel i c ch Hic Hcc), deliver_all; [done|].
  destruct (wf_chans_open w i c Hwf Hic) as (ch' & Hch' & Hcl). congruence.
Qed.

(** ** [AddPub] *)

(** X21: [AddPub] can be called any number of times.  Each call with a
    transport returns, makes that transport the publisher, attaches it to
    the plugin chain, starts another fan-out loop (and another REMB loop
    when [REMBFeedback] is set) and registers the callback that closes the
    router; no call closes the previous publisher or stops the loops
    started for it, and the subscriber maps and the channels are left as
    they were. *)
Theorem AddPub_again_starts_again (ts : list Transport) (w : World) :
  let w' := run (OpAddPub ∘ Some <$> ts) w in
  pub (router w') = from_option Some (pub (router w)) (last ts)
  ∧ trace w' = trace w
      ++ concat (attach_calls (REMBFeedback (routerConfig w)) <$> ts)
  ∧ subs (router w') = subs (router w)
  ∧ subChans (router w') = subChans (router w)
  ∧ chans w' = chans w
  ∧ routerConfig w' = routerConfig w.
Proof.
  induction ts as [|t ts IH] using rev_ind.
  - cbn. by rewrite app_nil_r.
  - cbn zeta in *.
    assert (E1 : OpAddPub ∘ Some <$> ts ++ [t]
                 = (OpAddPub ∘ Some <$> ts) ++ [OpAddPub (Some t)])
      by (by rewrite fmap_app).
    assert (E2 : ∀ b, concat (attach_calls b <$> ts ++ [t])
                      = concat (attach_calls b <$> ts) ++ attach_calls b t).
    { intros b. rewrite fmap_app, concat_app. cbn. by rewrite app_nil_r. }
    rewrite E1, E2, run_snoc, last_snoc.
    destruct IH as (Hp & Ht & Hs & Hc & Hch & Hcfg).
    set (w1 := run (OpAddPub ∘ Some <$> ts) w) in *.
    cbn [step compose]. unfold AddPub, start. run_go. cbn.
    rewrite Hcfg. unfold attach_calls.
    destruct (REMBFeedback (routerConfig w)); cbn;
      rewrite Ht, Hs, Hc, Hch, Hcfg, <- ?app_assoc; by split_and!.
Qed.

(** * Properties of the configuration loader *)

Section load.
Local Open Scope Z_scope.

(** X17: when the file is read and unmarshalled and the port range has
    two entries [lo; hi] (both [uint16]), [load] accepts it exactly when
    the difference [hi - lo], computed in [uint16], is above 100.  For
    [lo <= hi] that is [hi - lo > 100]: a span of exactly 100 is rejected.
    For a reversed range, [hi < lo], the difference wraps around and the
    range is accepted whenever [lo - hi < 65436]. *)
Theorem load_port_range_pair (env : LoadEnv) (lo hi : Z) :
  stat_err env = false → read_err env = false → unmarshal_err env = false →
  ICEPortRange env = [lo; hi] →
  0 ≤ lo < 65536 → 0 ≤ hi < 65536 →
  load env = LoadReturned
               (bool_decide ((lo ≤ hi ∧ 100 < hi - lo)
                             ∨ (hi < lo ∧ lo - hi < 65436))).
Proof.
  intros H1 H2 H3 Hr Hlo Hhi. unfold load. rewrite H1, H2, H3, Hr. cbn.
  unfold uint16, portRangeLimit.
  destruct (decide (lo ≤ hi)) as [Hle|Hgt].
  - rewrite Z.mod_small by lia.
    destruct (Z.leb_spec (hi - lo) 100).
    + rewrite bool_decide_eq_false_2; [done|lia].
    + rewrite bool_decide_eq_true_2; [done|lia].
  - replace ((hi - lo) mod 2 ^ 16) with (hi - lo + 65536).
    2:{ apply (Z.mod_unique_pos _ _ (-1)); lia. }
    destruct (Z.leb_spec (hi - lo + 65536) 100).
    + rewrite bool_decide_eq_false_2; [done|lia].
    + rewrite bool_decide_eq_true_2; [done|lia].
Qed.

End load.

(** X18: when the file is read and unmarshalled and the port range does
    not have two entries: an empty range is accepted, a range of more than
    two entries is rejected, and a range of one entry makes [load] panic on
    the index [1], which it reads after testing only that the range is not
    empty. *)
Theorem load_port_range_arity (env : LoadEnv) :
  stat_err env = false → read_err env = false → unmarshal_err env = false →
  length (ICEPortRange env) ≠ 2 →
  load env = match length (ICEPortRange env) with
             | 0 => LoadReturned true
             | 1 => LoadIndexOutOfRange
             | _ => LoadReturned false
             end.
Proof.
  intros H1 H2 H3 Hlen. unfold load. rewrite H1, H2, H3.
  destruct (ICEPortRange env) as [|a [|b [|c r]]]; cbn in *; done.
Qed.

(** * Properties of the RTP forwarder *)

(** X19: [Stop] closes the transport and leaves the out channel as it
    is, open and with what it holds; after it, [WriteRTP] of any packets
    returns without queueing a packet and without writing to the
    transport. *)
Theorem forwarder_stopped_ignores_writes (f : RTPForwarder.t)
    (pkts : list Packet) :
  ∃ f1, RTPForwarder.Stop f = RTPForwarder.Returns f1 [RTPForwarder.TransportClose]
    ∧ RTPForwarder.ReadRTP f1 = RTPForwarder.ReadRTP f
    ∧ RTPForwarder.writes pkts f1 = RTPForwarder.Returns f1 [].
Proof.
  eexists. split; [reflexivity|]. split; [reflexivity|].
  induction pkts as [|pkt rest IH]; [done|].
  cbn [RTPForwarder.writes]. unfold RTPForwarder.WriteRTP at 1.
  cbn [RTPForwarder.stop]. by rewrite IH.
Qed.

Lemma forwarder_writes_room (pkts : list Packet) : ∀ f : RTPForwarder.t,
  RTPForwarder.stop f = false →
  closed (RTPForwarder.outRTPChan f) = false →
  length (buf (RTPForwarder.outRTPChan f)) + length pkts
    ≤ cap (RTPForwarder.outRTPChan f) →
  RTPForwarder.writes pkts f =
  RTPForwarder.Returns
    {| RTPForwarder.id := RTPForwarder.id f;
       RTPForwarder.stop := false;
       RTPForwarder.Transport := RTPForwarder.Transport f;
       RTPForwarder.outRTPChan :=
         mkChan (buf (RTPForwarder.outRTPChan f) ++ pkts)
                (cap (RTPForwarder.outRTPChan f)) false |}
    (RTPForwarder.GoWriteRTP <$> pkts).
Proof.
  induction pkts as [|pkt rest IH]; intros f Hs Hc Hlen.
  - destruct f as [? ? ? []]. cbn in *. subst. by rewrite app_nil_r.
  - cbn [RTPForwarder.writes length] in *. unfold RTPForwarder.WriteRTP.
    rewrite Hs, Hc. rewrite decide_True by lia.
    rewrite IH; cbn; try done.
    + by rewrite <- app_assoc.
    + rewrite length_app. cbn. lia.
Qed.

(** X20: a new forwarder whose out channel nobody reads takes [maxSize]
    packets and no more.  [WriteRTP] of up to [maxSize] packets returns for
    each of them: the packets are in the out channel in the order written,
    and one goroutine writing to the transport has been started for each.
    With more packets the send of packet [maxSize + 1] waits: the call
    does not return. *)
Theorem forwarder_fills_then_blocks (maxSize : nat) (i mid : string)
    (config : RTPForwarder.RTPForwarderConfig) (pkts : list Packet) :
  let f := RTPForwarder.NewRTPForwarder maxSize i mid config in
  RTPForwarder.writes pkts f =
  if decide (length pkts ≤ maxSize)
  then RTPForwarder.Returns
         {| RTPForwarder.id := i;
            RTPForwarder.stop := false;
            RTPForwarder.Transport := RTPForwarder.Transport f;
            RTPForwarder.outRTPChan := mkChan pkts maxSize false |}
         (RTPForwarder.GoWriteRTP <$> pkts)
  else RTPForwarder.Blocks.
Proof.
  intros f. case_decide as Hlen.
  - by rewrite forwarder_writes_room.
  - assert (Hsplit : pkts = take maxSize pkts ++ drop maxSize pkts)
      by (by rewrite take_drop).
    destruct (drop maxSize pkts) as [|pkt rest] eqn:Ed.
    { apply (f_equal length) in Ed. rewrite length_drop in Ed. cbn in Ed. lia. }
    assert (Happ : ∀ l1 l2 g g1 calls,
              RTPForwarder.writes l1 g = RTPForwarder.Returns g1 calls →
              RTPForwarder.writes (l1 ++ l2) g
              = match RTPForwarder.writes l2 g1 with
                | RTPForwarder.Returns g2 calls2 =>
                  RTPForwarder.Returns g2 (calls ++ calls2)
                | r => r
                end).
    { induction l1 as [|p l1 IH]; intros l2 g g1 calls.
      - cbn. intros [= <- <-]. by destruct (RTPForwarder.writes l2 g).
      - cbn [RTPForwarder.writes app].
        destruct (RTPForwarder.WriteRTP p g) as [g' c'| |]; try discriminate.
        destruct (RTPForwarder.writes l1 g') as [g'' c''| |] eqn:E; try discriminate.
        intros [= <- <-]. rewrite (IH l2 g' g'' c'' E).
        destruct (RTPForwarder.writes l2 g''); try done.
        by rewrite app_assoc. }
    rewrite Hsplit.
    erewrite Happ; [|apply forwarder_writes_room; cbn; try done;
                     rewrite length_take; lia].
    cbn [RTPForwarder.writes]. unfold RTPForwarder.WriteRTP. cbn.
    rewrite decide_False; [done|]. rewrite length_take. lia.
Qed.

(** * The further properties on example worlds *)

Lemma delSub_unknown_or_repeated_witness :
  let w := run [OpDelSub "a"] example_running in
  (∃ w0, delSub "a" w0 = (Returned tt, w))
  ∧ delSub "a" w = (Returned tt, w).
Proof.
  intros w.
  assert (H : ∃ w0, delSub "a" w0 = (Returned tt, w)).
  { exists example_running. vm_compute. reflexivity. }
  split; [exact H|].
  exact (delSub_unknown_or_repeated "a" w (or_intror H)).
Defined.

Lemma AddSub_then_GetSub_witness :
  let w := example_running in
  stop (router w) = false
  ∧ ∃ w' c, AddSub "c" (Some 4) w = (Returned (Some 4), w')
    ∧ GetSub "c" w' = (Returned (Some 4), w')
    ∧ (∀ j, j ≠ "c" → (GetSub j w').1 = (GetSub j w).1)
    ∧ subChans (router w') !! "c" = Some c
    ∧ chans w !! c = None
    ∧ chans w' !! c = Some (mkChan [] 1000 false)
    ∧ (∀ c', c' ≠ c → chans w' !! c' = chans w !! c').
Proof.
  intros w.
  assert (H : stop (router w) = false) by (vm_compute; reflexivity).
  split; [exact H|]. exact (AddSub_then_GetSub "c" 4 w H).
Defined.

Lemma AddSub_nil_transport_witness :
  let w := example_running in
  stop (router w) = false
  ∧ ∃ w' c, AddSub "c" None w = (Panicked NilDereference, w')
    ∧ subs (router w') !! "c" = Some None
    ∧ subChans (router w') !! "c" = Some c
    ∧ chans w !! c = None
    ∧ chans w' !! c = Some (mkChan [] 1000 false)
    ∧ trace w' = trace w
    ∧ GetSub "c" w' = (Returned None, w').
Proof.
  intros w.
  assert (H : stop (router w) = false) by (vm_compute; reflexivity).
  split; [exact H|]. exact (AddSub_nil_transport "c" w H).
Defined.

Lemma AddSub_then_delSub_witness :
  let w := example_running in
  (stop (router w) = false
   ∧ subs (router w) !! "c" = None ∧ subChans (router w) !! "c" = None)
  ∧ ∃ w1 w2 c,
    AddSub "c" (Some 4) w = (Returned (Some 4), w1)
    ∧ delSub "c" w1 = (Returned tt, w2)
    ∧ subs (router w2) = subs (router w)
    ∧ subChans (router w2) = subChans (router w)
    ∧ router_rest (router w2) = router_rest (router w)
    ∧ chans w !! c = None
    ∧ chans w2 !! c = Some (mkChan [] 1000 true)
    ∧ (∀ c', c' ≠ c → chans w2 !! c' = chans w !! c')
    ∧ trace w2 = trace w ++ [TOnClose 4 (CallDelSub "c");
                             Go (SubWriteLoop "c" 4);
                             Go (SubFeedbackLoop "c" 4);
                             TClose 4].
Proof.
  intros w.
  assert (H1 : stop (router w) = false) by (vm_compute; reflexivity).
  assert (H2 : subs (router w) !! "c" = None) by (vm_compute; reflexivity).
  assert (H3 : subChans (router w) !! "c" = None) by (vm_compute; reflexivity).
  split; [by split_and!|]. exact (AddSub_then_delSub "c" 4 w H1 H2 H3).
Defined.

Lemma Close_tears_down_witness :
  let ops := [OpAddPub (Some 9); OpOnClose (Some 1);
              OpAddSub "a" (Some 2); OpAddSub "b" (Some 3)] in
  let w := run ops (NewWorld "r" example_config) in
  (stop (router w) = false
   ∧ onCloseHandler (router w) = Some 1 ∧ pub (router w) = Some 9)
  ∧ ∃ w', Close ["b"] w = (Returned tt, w')
    ∧ stop (router w') = true
    ∧ pub (router w') = None
    ∧ subs (router w') = ∅
    ∧ subChans (router w') = ∅
    ∧ onCloseHandler (router w') = Some 1
    ∧ (∀ i c, subChans (router w) !! i = Some c →
              closed <$> chans w' !! c = Some true)
    ∧ trace w' = trace w
        ++ [HandlerCall 1; TID 9; TClose 9; ChainClose]
        ++ (TClose <$> omap (lookup_iface (subs (router w)))
                            (range_keys ["b"] (subs (router w)))).
Proof.
  intros ops w.
  assert (H1 : stop (router w) = false) by (vm_compute; reflexivity).
  assert (H2 : onCloseHandler (router w) = Some 1) by (vm_compute; reflexivity).
  assert (H3 : pub (router w) = Some 9) by (vm_compute; reflexivity).
  split; [by split_and!|].
  exact (Close_tears_down "r" example_config ops ["b"] 1 9 H1 H2 H3).
Defined.

Lemma Close_without_publisher_witness :
  let w := run [OpOnClose (Some 1); OpAddSub "a" (Some 2)]
               (NewWorld "r" example_config) in
  (stop (router w) = false
   ∧ onCloseHandler (router w) = Some 1 ∧ pub (router w) = None)
  ∧ ∃ w', Close [] w = (Panicked NilDereference, w')
    ∧ router w' = router w ∧ chans w' = chans w
    ∧ trace w' = trace w ++ [HandlerCall 1]
    ∧ ∃ w'', Close ["a"] w' = (Panicked NilDereference, w'')
        ∧ router w'' = router w
        ∧ trace w'' = trace w ++ [HandlerCall 1; HandlerCall 1].
Proof.
  intros w.
  assert (H1 : stop (router w) = false) by (vm_compute; reflexivity).
  assert (H2 : onCloseHandler (router w) = Some 1) by (vm_compute; reflexivity).
  assert (H3 : pub (router w) = None) by (vm_compute; reflexivity).
  split; [by split_and!|].
  exact (Close_without_publisher [] ["a"] 1 w H1 H2 H3).
Defined.

Lemma stop_flag_stays_set_witness :
  let ops := [OpAddSub "z" (Some 5); OpAddPub (Some 6); OpDelSub "a";
              OpOnClose None; OpClose [];
              OpFanOut (mkReadResult (Some (mkPacket 1 2 3)) false) []] in
  let w := example_closed in
  stop (router w) = true ∧ stop (router (run ops w)) = true.
Proof.
  intros ops w.
  assert (H : stop (router w) = true) by (vm_compute; reflexivity).
  split; [exact H|]. exact (stop_flag_stays_set ops w H).
Defined.

Lemma closed_channel_stays_closed_witness :
  let ops := [OpAddSub "a" (Some 5); OpAddPub (Some 6); OpDelSub "a"] in
  let w := run [OpDelSub "a"] example_running in
  closed <$> chans w !! 0 = Some true
  ∧ closed <$> chans (run ops w) !! 0 = Some true.
Proof.
  intros ops w.
  assert (H : closed <$> chans w !! 0 = Some true) by (vm_compute; reflexivity).
  split; [exact H|]. exact (closed_channel_stays_closed ops w 0 H).
Defined.

Lemma readers_leave_bookkeeping_witness :
  let op := OpFanOut (mkReadResult (Some (mkPacket 1 2 3)) false) ["b"] in
  let w := example_running in
  reads_bookkeeping op = true
  ∧ subs (router (step op w).2) = subs (router w)
  ∧ subChans (router (step op w).2) = subChans (router w)
  ∧ stop (router (step op w).2) = stop (router w)
  ∧ onCloseHandler (router (step op w).2) = onCloseHandler (router w)
  ∧ ∀ c, closed <$> chans (step op w).2 !! c = closed <$> chans w !! c.
Proof.
  intros op w. split; [reflexivity|].
  exact (readers_leave_bookkeeping op w eq_refl).
Defined.

Lemma queues_stay_bounded_witness :
  let ops := [OpAddPub (Some 9); OpAddSub "a" (Some 2);
              OpFanOut (mkReadResult (Some (mkPacket 1 2 3)) false) []] in
  let ch := mkChan [mkPacket 1 2 3] 1000 false in
  chans (run ops (NewWorld "r" example_config)) !! 0 = Some ch
  ∧ cap ch = 1000 ∧ length (buf ch) ≤ 1000.
Proof.
  intros ops ch.
  assert (H : chans (run ops (NewWorld "r" example_config)) !! 0 = Some ch)
    by (vm_compute; reflexivity).
  split; [exact H|].
  exact (queues_stay_bounded "r" example_config ops 0 ch H).
Defined.

Lemma subWriteLoop_drains_in_order_witness :
  let p1 := mkPacket 1 2 3 in
  let p2 := mkPacket 1 3 3 in
  let w := run [OpFanOut (mkReadResult (Some p1) false) [];
                OpFanOut (mkReadResult (Some p2) false) ["b"];
                OpDelSub "a"] example_running in
  let ch := mkChan [p1; p2] 1000 true in
  let answers := [mkWriteAnswer false 0 "a"; mkWriteAnswer false 0 "a";
                  mkWriteAnswer false 0 "a"] in
  (chans w !! 0 = Some ch
   ∧ length (buf ch) ≤ length answers
   ∧ Forall (λ a, wa_err a = false) answers)
  ∧ ∃ w', subWriteLoop_on (Some 0) 2 answers w = (Returned tt, w')
    ∧ router w' = router w
    ∧ chans w' = <[0 := mkChan [] (cap ch) (closed ch)]> (chans w)
    ∧ trace w' = trace w ++ concat (written 2 <$> buf ch).
Proof.
  intros p1 p2 w ch answers.
  assert (H1 : chans w !! 0 = Some ch) by (vm_compute; reflexivity).
  assert (H2 : length (buf ch) ≤ length answers) by (cbn; lia).
  assert (H3 : Forall (λ a, wa_err a = false) answers)
    by (repeat constructor).
  split; [by split_and!|].
  exact (subWriteLoop_drains_in_order 0 2 answers ch w H1 H2 H3).
Defined.

Lemma nack_one_call_per_pair_witness :
  let w := example_running in
  let nack := mkNack 7 8 [mkNackPair 42 0; mkNackPair 43 5] in
  stop (router w) = false
  ∧ ∃ w' evs,
    subFeedbackLoop_body "a" 2 (NACK nack) w = (Returned Continue, w')
    ∧ router w' = router w ∧ chans w' = chans w
    ∧ trace w' = trace w ++ evs
    ∧ match pub (router w) with
      | None => evs = []
      | Some p =>
        Forall2 (λ nackPair e,
                   e = TWriteRTCP p (NACK (single_nack nack nackPair))
                   ∨ ∃ s pkt, e = TWriteRTP s pkt
                              ∧ lookup_iface (subs (router w)) "a" = Some s)
                (Nacks nack) evs
      end.
Proof.
  intros w nack.
  assert (H : stop (router w) = false) by (vm_compute; reflexivity).
  split; [exact H|]. exact (nack_one_call_per_pair "a" 2 nack w H).
Defined.

Lemma rembLoop_quiet_until_due_witness :
  let arrivals := [mkArrival (mkREMB 5 600000 [11%Z]) 100000000 100000001;
                   mkArrival (mkREMB 6 400000 [12%Z]) 200000000 200000001] in
  Forall (λ a, (arr_since a - 0 ≤ maxRembTime)%Z) arrivals
  ∧ rembLoop_from arrivals (stats_of 10000 100000000 0 []) example_running
    = (Returned (stats_of 10000 100000000 0 ([] ++ (arr_pkt <$> arrivals))),
       example_running).
Proof.
  intros arrivals.
  assert (H : Forall (λ a, (arr_since a - 0 ≤ maxRembTime)%Z) arrivals).
  { repeat constructor; vm_compute; discriminate. }
  split; [exact H|].
  exact (rembLoop_quiet_until_due 10000 100000000 0 [] arrivals example_running H).
Defined.

Lemma fanout_keeps_order_drops_overflow_witness :
  let ops := [OpAddPub (Some 9); OpOnClose (Some 1);
              OpAddSub "a" (Some 2); OpAddSub "b" (Some 3)] in
  let w := run ops (NewWorld "r" example_config) in
  let reads := [(mkReadResult (Some (mkPacket 1 2 3)) false, []);
                (mkReadResult None false, []);
                (mkReadResult (Some (mkPacket 1 3 3)) false, ["b"])] in
  let ch := mkChan [] 1000 false in
  (stop (router w) = false
   ∧ (On (pluginChain (router w)) = false → is_Some (pub (router w)))
   ∧ subChans (router w) !! "a" = Some 0
   ∧ chans w !! 0 = Some ch)
  ∧ ∃ w', start_loop reads w = (Returned tt, w')
    ∧ router w' = router w
    ∧ chans w' !! 0
      = Some (mkChan (buf ch ++ take (cap ch - length (buf ch))
                                     (omap (λ r, source_packet w r.1) reads))
                     (cap ch) false).
Proof.
  intros ops w reads ch.
  assert (H1 : stop (router w) = false) by (vm_compute; reflexivity).
  assert (H2 : On (pluginChain (router w)) = false → is_Some (pub (router w))).
  { intros _. exists 9. vm_compute. reflexivity. }
  assert (H3 : subChans (router w) !! "a" = Some 0) by (vm_compute; reflexivity).
  assert (H4 : chans w !! 0 = Some ch) by (vm_compute; reflexivity).
  split; [by split_and!|].
  exact (fanout_keeps_order_drops_overflow "r" example_config ops reads "a" 0 ch
           H1 H2 H3 H4).
Defined.

Lemma load_port_range_pair_witness :
  let env := mkLoadEnv false false false [50000%Z; 50100%Z] in
  load env = LoadReturned false
  ∧ load env = LoadReturned
                 (bool_decide ((50000 ≤ 50100 ∧ 100 < 50100 - 50000)%Z
                               ∨ (50100 < 50000 ∧ 50000 - 50100 < 65436)%Z)).
Proof.
  intros env. split; [reflexivity|].
  apply (load_port_range_pair env 50000 50100); (reflexivity || lia).
Defined.

Lemma load_port_range_arity_witness :
  let env := mkLoadEnv false false false [5000%Z] in
  length (ICEPortRange env) ≠ 2
  ∧ load env = match length (ICEPortRange env) with
               | 0 => LoadReturned true
               | 1 => LoadIndexOutOfRange
               | _ => LoadReturned false
               end.
Proof.
  intros env.
  assert (H : length (ICEPortRange env) ≠ 2) by (cbn; lia).
  split; [exact H|].
  exact (load_port_range_arity env eq_refl eq_refl eq_refl H).
Defined.
